(** * Kruskal clustering: a shallow embedding of [kruskal.py] and its properties

    The Python module keeps three dictionaries ([parent], [rank], [cc]) and
    mutates them while it scans the sorted edges.  Here the dictionaries are
    finite maps ([gmap]), Python sets are finite sets ([gset]), mutation is
    explicit state passing, and exceptions are the [Raise] results of a small
    error monad. *)

From Stdlib Require Import ZArith Lia.
From stdpp Require Import base option list sorting relations gmap sets fin_sets strings.

Local Open Scope Z_scope.
#[local] Set Warnings "-clear-no-such-hyp".

(** ** Exceptions *)

Inductive exn := ValueError | KeyError | AssertionError | RecursionError.

Inductive result (A : Type) : Type :=
| Ok (a : A)
| Raise (e : exn).
Arguments Ok {A} a.
Arguments Raise {A} e.

#[global] Instance result_ret : MRet result := @Ok.
#[global] Instance result_bind : MBind result := λ A B f m,
  match m with Ok a => f a | Raise e => Raise e end.

(** [assert cond] *)
Definition assert (P : Prop) `{!Decision P} : result unit :=
  if decide P then Ok () else Raise AssertionError.

(** [d[k]] on a dictionary: [KeyError] when the key is absent. *)
Definition getitem `{Countable K} {A} (d : gmap K A) (k : K) : result A :=
  match d !! k with Some x => Ok x | None => Raise KeyError end.

(** A [for] loop without [break], threading the mutated state. *)
Fixpoint for_in {A S : Type} (l : list A) (body : A → S → result S) (s : S) : result S :=
  match l with
  | [] => Ok s
  | x :: l => s ← body x s; for_in l body s
  end.

Section kruskal.
Context `{Countable V}.
(** The order of the vertices, used by [sorted] to break ties. *)
Context (vle : relation V) `{!RelDecision vle}.

(** An edge [(weight, source, target)]. *)
Definition edge : Type := Z * V * V.

Definition weight_of (e : edge) : Z := e.1.1.
Definition source_of (e : edge) : V := e.1.2.
Definition target_of (e : edge) : V := e.2.

(** An element of the iterable given to [clustering]: a tuple of any length
    whose first field, when there is one, is a weight and whose other
    fields are vertices. *)
Inductive pytuple :=
| TEmpty
| TCons (weight : Z) (rest : list V).

Definition len (t : pytuple) : nat :=
  match t with TEmpty => 0%nat | TCons _ rest => S (length rest) end.

Definition tuple3 (e : edge) : pytuple := TCons e.1.1 [e.1.2; e.2].

(** [weight, source, target = t]: [ValueError] unless [t] has three fields. *)
Definition unpack (t : pytuple) : result edge :=
  match t with
  | TCons weight [source; target] => Ok (weight, source, target)
  | _ => Raise ValueError
  end.

Fixpoint unpack_all (ts : list pytuple) : result (list edge) :=
  match ts with
  | [] => Ok []
  | t :: ts => e ← unpack t; es ← unpack_all ts; Ok (e :: es)
  end.

(** Tuples compare lexicographically. *)
Definition edge_le (e1 e2 : edge) : Prop :=
  weight_of e1 < weight_of e2 ∨
  (weight_of e1 = weight_of e2 ∧
    (strict vle (source_of e1) (source_of e2) ∨
     (source_of e1 = source_of e2 ∧ vle (target_of e1) (target_of e2)))).

#[global] Instance edge_le_dec : RelDecision edge_le.
Proof. intros e1 e2. unfold edge_le, strict. apply _. Defined.

(** [sorted(edges)]: the tuples in ascending order. *)
Definition sorted (edges : list edge) : list edge := merge_sort edge_le edges.

(** [_vertices]: the set of the sources and targets. *)
Definition _vertices (edges : list edge) : gset V :=
  list_to_set (edges ≫= λ e, [source_of e; target_of e]).

(** [_make_set]: [parent[v] = v; rank[v] = 0; cc[v] = {v}]. *)
Definition _make_set (vertice : V)
    (st : gmap V V * gmap V Z * gmap V (gset V)) : gmap V V * gmap V Z * gmap V (gset V) :=
  let '(parent, rank, cc) := st in
  (<[vertice := vertice]> parent, <[vertice := 0]> rank, <[vertice := {[vertice]}]> cc).

(** [for vertex in vertices: _make_set(vertex, ...)] on empty dictionaries. *)
Definition make_sets (vertices : gset V) : gmap V V * gmap V Z * gmap V (gset V) :=
  set_fold _make_set (∅, ∅, ∅) vertices.

(** [_find], with path compression.  The recursion of the source is
    bounded by [fuel]; running out of it is the [RecursionError] of a
    parent chain that never reaches a root. *)
Fixpoint _find (fuel : nat) (vertice : V) (parent : gmap V V) : result (V * gmap V V) :=
  match fuel with
  | O => Raise RecursionError
  | S fuel =>
      p ← getitem parent vertice;
      if decide (p ≠ vertice) then
        '(root, parent) ← _find fuel p parent;
        Ok (root, <[vertice := root]> parent)
      else Ok (p, parent)
  end.

(** A chain without a cycle visits each key at most once, so this much
    fuel is enough for it.  The recursion limit of the interpreter is not
    part of [find]: where a theorem says that [find] returns, the
    dictionaries are those of the loops or have the invariants of the
    disjoint sets ([uf_inv], [rank_inv]), whose chains have at most
    [log2 n] steps for [n] vertices; [_find] with explicit fuel gives the
    calls with a bound on the nesting. *)
Definition find (vertice : V) (parent : gmap V V) : result (V * gmap V V) :=
  _find (S (size parent)) vertice parent.

Definition _union (vertice1 vertice2 : V) (parent : gmap V V) (rank : gmap V Z)
    : result (gmap V V * gmap V Z) :=
  '(root1, parent) ← find vertice1 parent;
  '(root2, parent) ← find vertice2 parent;
  if decide (root1 ≠ root2) then
    rank1 ← getitem rank root1;
    rank2 ← getitem rank root2;
    if decide (rank1 > rank2) then Ok (<[root2 := root1]> parent, rank)
    else if decide (rank1 = rank2)
         then Ok (<[root1 := root2]> parent, <[root2 := rank2 + 1]> rank)
         else Ok (<[root1 := root2]> parent, rank)
  else Ok (parent, rank).

(** Returns [Some (new root, node that is no longer a root)], or [None]
    (Python's implicit [None]) when nothing was merged. *)
Definition _union_returning_choosen (vertice1 vertice2 : V)
    (parent : gmap V V) (rank : gmap V Z)
    : result (option (V * V) * gmap V V * gmap V Z) :=
  '(root1, parent) ← find vertice1 parent;
  '(root2, parent) ← find vertice2 parent;
  if decide (root1 ≠ root2) then
    rank1 ← getitem rank root1;
    rank2 ← getitem rank root2;
    if decide (rank1 > rank2) then Ok (Some (root1, root2), <[root2 := root1]> parent, rank)
    else if decide (rank1 = rank2)
         then Ok (Some (root2, root1), <[root1 := root2]> parent, <[root2 := rank2 + 1]> rank)
         else Ok (Some (root2, root1), <[root1 := root2]> parent, rank)
  else Ok (None, parent, rank).

(** *** [minimum_spanning_tree] *)

(** The body of the loop over the sorted edges. *)
Definition mst_body (e : edge) (st : gmap V V * gmap V Z * gset edge)
    : result (gmap V V * gmap V Z * gset edge) :=
  let '(parent, rank, minspantree) := st in
  let '(weight, vertice1, vertice2) := e in
  '(root1, parent) ← find vertice1 parent;
  '(root2, parent) ← find vertice2 parent;
  if decide (root1 ≠ root2) then
    '(parent, rank) ← _union vertice1 vertice2 parent rank;
    Ok (parent, rank, {[e]} ∪ minspantree)
  else Ok (parent, rank, minspantree).

Definition minimum_spanning_tree (edges : list edge) : result (gset edge) :=
  let '(parent, rank, cc) := make_sets (_vertices edges) in
  '(_, _, minspantree) ← for_in (sorted edges) mst_body (parent, rank, ∅);
  Ok minspantree.

(** *** [clustering] *)

(** The variables the loop of [clustering] mutates. *)
Record cstate := CState {
  st_parent : gmap V V;
  st_rank : gmap V Z;
  st_cc : gmap V (gset V);
  st_minspantree : gset edge;
  st_union_performed : Z
}.

(** The body of the loop, after the [break] test. *)
Definition clustering_body (e : edge) (st : cstate) : result cstate :=
  let '(weight, vertice1, vertice2) := e in
  '(root1, parent) ← find vertice1 (st_parent st);
  '(root2, parent) ← find vertice2 parent;
  if decide (root1 ≠ root2) then
    '(union_result, parent, rank) ←
      _union_returning_choosen vertice1 vertice2 parent (st_rank st);
    '(parent, cc) ←
      match union_result with
      | Some (choosen_root, unchoosen_root) =>
          assert (choosen_root ∈ dom (st_cc st));;
          assert (unchoosen_root ∈ dom (st_cc st));;
          choosen ← getitem (st_cc st) choosen_root;
          unchoosen ← getitem (st_cc st) unchoosen_root;
          let cc := <[choosen_root := choosen ∪ unchoosen]> (st_cc st) in
          let cc := delete unchoosen_root cc in
          '(r1, parent) ← find vertice1 parent;
          '(r2, parent) ← find vertice2 parent;
          assert (r1 = r2);;
          Ok (parent, cc)
      | None => Ok (parent, st_cc st)
      end;
    Ok (CState parent rank cc ({[e]} ∪ st_minspantree st) (st_union_performed st + 1))
  else
    Ok (CState parent (st_rank st) (st_cc st) (st_minspantree st) (st_union_performed st)).

(** [for edge in sorted(edges)] with its [break]. *)
Fixpoint clustering_loop (nb_unions : Z) (edges : list edge) (st : cstate) : result cstate :=
  match edges with
  | [] => Ok st
  | e :: edges =>
      if decide (st_union_performed st > nb_unions) then Ok st
      else st ← clustering_body e st; clustering_loop nb_unions edges st
  end.

(** The state when the loop is entered. *)
Definition clustering_init (edges : list edge) : cstate :=
  let '(parent, rank, cc) := make_sets (_vertices edges) in
  CState parent rank cc ∅ 1.

(** [clustering] once the length check has passed. *)
Definition clustering_checked (edges : list edge) (nb_clusters : Z)
    : result (gset edge * gmap V (gset V)) :=
  let vertices := _vertices edges in
  let nb_unions := Z.of_nat (size vertices) - nb_clusters in
  st ← clustering_loop nb_unions (sorted edges) (clustering_init edges);
  Ok (st_minspantree st, st_cc st).

Definition clustering (edges : list pytuple) (nb_clusters : Z)
    : result (gset edge * gmap V (gset V)) :=
  if forallb (λ e, bool_decide (len e = 3%nat)) edges then
    edges ← unpack_all edges;
    clustering_checked edges nb_clusters
  else Raise ValueError.

(** *** Counting the unions

    The loops again, with a counter of the iterations that take the branch
    calling the union; the state goes through the bodies above. *)
Definition calls_union (e : edge) (parent : gmap V V) : result bool :=
  let '(weight, vertice1, vertice2) := e in
  '(root1, parent) ← find vertice1 parent;
  '(root2, parent) ← find vertice2 parent;
  Ok (bool_decide (root1 ≠ root2)).

Fixpoint mst_unions_loop (edges : list edge)
    (st : gmap V V * gmap V Z * gset edge) (n : nat) : result nat :=
  match edges with
  | [] => Ok n
  | e :: edges =>
      b ← calls_union e st.1.1;
      st ← mst_body e st;
      mst_unions_loop edges st (if b : bool then S n else n)
  end.

(** The number of unions that a run of [minimum_spanning_tree] performs. *)
Definition mst_unions (edges : list edge) : result nat :=
  let '(parent, rank, cc) := make_sets (_vertices edges) in
  mst_unions_loop (sorted edges) (parent, rank, ∅) 0.

Fixpoint clustering_unions_loop (nb_unions : Z) (edges : list edge)
    (st : cstate) (n : nat) : result nat :=
  match edges with
  | [] => Ok n
  | e :: edges =>
      if decide (st_union_performed st > nb_unions) then Ok n
      else
        b ← calls_union e (st_parent st);
        st ← clustering_body e st;
        clustering_unions_loop nb_unions edges st (if b : bool then S n else n)
  end.

(** The number of unions that a run of [clustering] performs. *)
Definition clustering_unions (edges : list edge) (nb_clusters : Z) : result nat :=
  let nb_unions := Z.of_nat (size (_vertices edges)) - nb_clusters in
  clustering_unions_loop nb_unions (sorted edges) (clustering_init edges) 0.

(** *** Reading the [parent] dictionary

    [reaches parent n x r]: following [parent] from [x] arrives, after [n]
    steps, at the root [r] (a key that is its own parent). *)
Inductive reaches (parent : gmap V V) : nat → V → V → Prop :=
| reaches_root r :
    parent !! r = Some r → reaches parent 0 r r
| reaches_step n x y r :
    parent !! x = Some y → y ≠ x → reaches parent n y r → reaches parent (S n) x r.

Definition root_of (parent : gmap V V) (x r : V) : Prop := ∃ n, reaches parent n x r.

(** The current roots. *)
Definition roots (parent : gmap V V) : gset V :=
  dom (filter (λ kv, kv.1 = kv.2) parent).

(** The representative of [x]: what [find] returns for it. *)
Definition rep (parent : gmap V V) (x : V) : V :=
  match find x parent with Ok (r, _) => r | Raise _ => x end.

(** Every key of [parent] leads to a root. *)
Definition forest (parent : gmap V V) : Prop :=
  ∀ x, x ∈ dom parent → ∃ r, root_of parent x r.

(** Two functions that group the vertices of [X] in the same way. *)
Definition keq (X : gset V) (f g : V → V) : Prop :=
  ∀ x y, x ∈ X → y ∈ X → (f x = f y ↔ g x = g y).

(** Merging the group of [a] into the group of [b]. *)
Definition merge (r : V → V) (a b : V) : V → V :=
  λ v, if decide (r v = r a) then r b else r v.

(** *** Invariants of the dictionaries *)

(** [parent] and [rank] over the vertex set [Vs]. *)
Definition uf_inv (Vs : gset V) (parent : gmap V V) (rank : gmap V Z) : Prop :=
  forest parent ∧ dom parent = Vs ∧ dom rank = Vs.

(** The vertices of [Vs] whose representative is [s]. *)
Definition members_of (Vs : gset V) (parent : gmap V V) (s : V) : gset V :=
  filter (λ x, rep parent x = s) Vs.

(** The state of the loop of [clustering]: [cc] has one entry per root,
    holding the vertices below that root. *)
Record cinv (Vs : gset V) (st : cstate) : Prop := CInv {
  cinv_uf : uf_inv Vs (st_parent st) (st_rank st);
  cinv_dom : dom (st_cc st) = filter (λ s, rep (st_parent st) s = s) Vs;
  cinv_members : ∀ s m, st_cc st !! s = Some m → m = members_of Vs (st_parent st) s
}.

(** *** The scan of the edges, on groups

    What both loops compute, with the union-find dictionaries replaced by a
    function [r] that gives each vertex the name of its group: an edge is
    accepted when its ends are in different groups, which are then
    merged. *)
Fixpoint accepted (r : V → V) (l : list edge) : list edge :=
  match l with
  | [] => []
  | e :: l =>
      if decide (r (source_of e) = r (target_of e)) then accepted r l
      else e :: accepted (merge r (source_of e) (target_of e)) l
  end.

Fixpoint rejected (r : V → V) (l : list edge) : list edge :=
  match l with
  | [] => []
  | e :: l =>
      if decide (r (source_of e) = r (target_of e)) then e :: rejected r l
      else rejected (merge r (source_of e) (target_of e)) l
  end.

Fixpoint final (r : V → V) (l : list edge) : V → V :=
  match l with
  | [] => r
  | e :: l =>
      if decide (r (source_of e) = r (target_of e)) then final r l
      else final (merge r (source_of e) (target_of e)) l
  end.

(** The edges of [l] join vertices of [Vs]. *)
Definition ends_in (Vs : gset V) (l : list edge) : Prop :=
  Forall (λ e, source_of e ∈ Vs ∧ target_of e ∈ Vs) l.

(** The number of groups that [r] makes of the vertices of [Vs]. *)
Definition classes (Vs : gset V) (r : V → V) : nat := size (set_map r Vs : gset V).

(** *** Graphs

    A graph is given by its edges, here a predicate [E] on edges; the
    edges are not directed. *)
Definition adj (E : edge → Prop) (x y : V) : Prop :=
  ∃ e, E e ∧ source_of e = x ∧ target_of e = y.

(** [x] and [y] are joined by a path. *)
Definition connected (E : edge → Prop) : relation V := rtsc (adj E).

(** Joined by a path that may also jump inside the groups of [r]. *)
Definition gen (r : V → V) (E : edge → Prop) : relation V :=
  rtsc (λ x y, r x = r y ∨ adj E x y).

(** Sum of the weights of a list and of a set of edges. *)
Definition sumw (l : list edge) : Z := foldr (λ e acc, weight_of e + acc) 0 l.

Definition total_weight (es : gset edge) : Z :=
  set_fold (λ e acc, weight_of e + acc) 0 es.

(** No cycle: no edge of [F] joins two vertices that the other edges of
    [F] already join. *)
Definition acyclic (F : gset edge) : Prop :=
  ∀ e, e ∈ F → ¬ connected (λ e', e' ∈ F ∧ e' ≠ e) (source_of e) (target_of e).

(** A spanning forest of the graph [edges]: some of its edges, without a
    cycle, that join whatever the graph joins. *)
Definition spanning_forest (edges : list edge) (F : gset edge) : Prop :=
  (∀ e, e ∈ F → e ∈ edges) ∧ acyclic F ∧
  (∀ x y, connected (.∈ edges) x y → connected (.∈ F) x y).

(** [P] is the set of the connected components of the graph with the
    vertices [Vs] and the edges [E]. *)
Definition components (Vs : gset V) (E : edge → Prop) (P : gset (gset V)) : Prop :=
  (∀ x, x ∈ Vs → ∃ C, C ∈ P ∧ x ∈ C) ∧
  (∀ C, C ∈ P → ∃ x, x ∈ Vs ∧ ∀ y, y ∈ C ↔ y ∈ Vs ∧ connected E x y).

(** A connected graph: it has a vertex, and a path between any two. *)
Definition connected_graph (edges : list edge) : Prop :=
  edges ≠ [] ∧
  ∀ x y, x ∈ _vertices edges → y ∈ _vertices edges → connected (.∈ edges) x y.

(** Union by rank: ranks are not negative, a key that is not a root has a
    smaller rank than its parent, and a root of rank [k] has at least
    [2 ^ k] vertices in its group. *)
Definition rank_inv (Vs : gset V) (parent : gmap V V) (rank : gmap V Z) : Prop :=
  (∀ x k, rank !! x = Some k → 0 ≤ k) ∧
  (∀ x y kx ky, parent !! x = Some y → y ≠ x →
     rank !! x = Some kx → rank !! y = Some ky → kx < ky) ∧
  (∀ s k, parent !! s = Some s → rank !! s = Some k →
     2 ^ k ≤ Z.of_nat (size (members_of Vs parent s))).

End kruskal.

(** ** The graph of [main.py] *)

Definition str_le : relation string := λ a b, String.leb a b = true.
#[global] Instance str_le_dec : RelDecision str_le.
Proof. intros a b. unfold str_le. apply _. Defined.

Definition main_graph : list (edge (V:=string)) :=
  [ (1, "A", "S"); (5, "A", "B"); (6, "A", "C"); (3, "S", "C");
    (2, "C", "D"); (3, "B", "D"); (2, "E", "B"); (4, "E", "D") ]%string.

Definition main_mst_edges : list (edge (V:=string)) :=
  [ (1, "A", "S"); (2, "C", "D"); (3, "S", "C"); (3, "B", "D"); (2, "E", "B") ]%string.

Definition main_mst : gset (edge (V:=string)) := list_to_set main_mst_edges.

(** ** Small graphs on numbered vertices *)

Definition one_edge : list (edge (V:=nat)) := [ (1, 0%nat, 1%nat) ].

Definition triangle : list (edge (V:=nat)) :=
  [ (2, 1%nat, 2%nat); (1, 0%nat, 1%nat); (3, 0%nat, 2%nat) ].


(** * Properties *)

Lemma bind_Ok {A B} (m : result A) (f : A → result B) b :
  m ≫= f = Ok b ↔ ∃ a, m = Ok a ∧ f a = Ok b.
Proof. destruct m; simpl; naive_solver. Qed.

Lemma bind_Ok_l {A B} (a : A) (f : A → result B) : Ok a ≫= f = f a.
Proof. done. Qed.

Lemma getitem_Ok `{Countable K} {A} (d : gmap K A) k x :
  getitem d k = Ok x ↔ d !! k = Some x.
Proof. unfold getitem. destruct (d !! k); naive_solver. Qed.

Lemma assert_Ok (P : Prop) `{!Decision P} u : assert P = Ok u ↔ P.
Proof. unfold assert. destruct u. case_decide; naive_solver. Qed.

(** Splits a hypothesis [m ≫= f = Ok b] into its successful steps. *)
Ltac inv_Ok H :=
  repeat match type of H with
  | _ ≫= _ = Ok _ =>
      let a := fresh "a" in let Ha := fresh "Hstep" in
      apply bind_Ok in H as (a & Ha & H);
      try match type of Ha with getitem _ _ = Ok _ => apply getitem_Ok in Ha end;
      try match type of Ha with assert _ = Ok _ => apply assert_Ok in Ha end
  | (let '(_, _) := ?p in _) = Ok _ => destruct p
  end.

Section union_find.
Context `{Countable V}.
Implicit Types (parent p : gmap V V) (x y r s : V).

Lemma reaches_fun p n m x r r' :
  reaches p n x r → reaches p m x r' → n = m ∧ r = r'.
Proof.
  intros Hn. revert m r'. induction Hn as [r Hr|n x y r Hx Hne Hn IH]; intros m r' Hm.
  - inversion Hm; simplify_eq; done.
  - inversion Hm; simplify_eq.
    destruct (IH _ _ ltac:(eassumption)) as [-> ->]. done.
Qed.

Lemma root_of_fun p x r r' : root_of p x r → root_of p x r' → r = r'.
Proof. intros [n Hn] [m Hm]. by destruct (reaches_fun _ _ _ _ _ _ Hn Hm). Qed.

Lemma reaches_is_root p n x r : reaches p n x r → p !! r = Some r.
Proof. induction 1; done. Qed.

Lemma root_of_is_root p x r : root_of p x r → p !! r = Some r.
Proof. intros [n Hn]. by eapply reaches_is_root. Qed.

Lemma root_of_root p r : p !! r = Some r → root_of p r r.
Proof. intros. exists 0%nat. by constructor. Qed.

Lemma root_of_root_inv p r s : p !! r = Some r → root_of p r s → s = r.
Proof. intros Hr Hs. eapply root_of_fun; [done|]. by apply root_of_root. Qed.

Lemma root_of_step p x y r :
  p !! x = Some y → root_of p y r → root_of p x r.
Proof.
  intros Hx [n Hn]. destruct (decide (y = x)) as [->|Hne]; [by exists n|].
  exists (S n). by econstructor.
Qed.

Lemma root_of_dom p x r : root_of p x r → x ∈ dom p.
Proof. intros [n Hn]. apply elem_of_dom. destruct Hn; eauto. Qed.

(** The keys on a chain are pairwise distinct: a chain of [n] steps needs
    [n + 1] keys. *)
Lemma reaches_keys p n x r :
  reaches p n x r →
  ∃ X : gset V, X ⊆ dom p ∧ size X = S n ∧ ∀ y, y ∈ X → ∃ k, (k ≤ n)%nat ∧ reaches p k y r.
Proof.
  induction 1 as [r Hr|n x y r Hx Hne Hn (X & Hsub & Hsz & HX)].
  - exists {[r]}. split_and!.
    + apply singleton_subseteq_l, elem_of_dom. eauto.
    + by rewrite size_singleton.
    + intros y ->%elem_of_singleton. exists 0%nat. split; [lia|by constructor].
  - exists ({[x]} ∪ X). split_and!.
    + apply union_subseteq. split; [|done].
      apply singleton_subseteq_l, elem_of_dom. eauto.
    + rewrite size_union, size_singleton; [lia|].
      apply disjoint_singleton_l. intros (k & Hk & Hr)%HX.
      assert (reaches p (S n) x r) as Hx' by (by econstructor).
      destruct (reaches_fun _ _ _ _ _ _ Hr Hx'). lia.
    + intros z [->%elem_of_singleton|(k & Hk & Hr)%HX]%elem_of_union.
      * exists (S n). split; [lia|by econstructor].
      * exists k. split; [lia|done].
Qed.

Lemma reaches_bound p n x r : reaches p n x r → (n < size p)%nat.
Proof.
  intros (X & Hsub & Hsz & _)%reaches_keys.
  apply subseteq_size in Hsub. rewrite size_dom in Hsub. lia.
Qed.

(** Path compression keeps every root. *)
Lemma compress_root_of p x r y s :
  root_of p x r → (root_of (<[x:=r]> p) y s ↔ root_of p y s).
Proof.
  intros Hx. pose proof (root_of_is_root _ _ _ Hx) as Hr. split.
  - intros [n Hn]. induction Hn as [s Hs|n y z s Hy Hne Hn IH].
    + apply root_of_root. destruct (decide (x = s)) as [->|?].
      * rewrite lookup_insert_eq in Hs. by simplify_eq.
      * by rewrite lookup_insert_ne in Hs.
    + destruct (decide (x = y)) as [->|?].
      * rewrite lookup_insert_eq in Hy. simplify_eq.
        by rewrite (root_of_root_inv _ _ _ Hr IH).
      * rewrite lookup_insert_ne in Hy by done. by eapply root_of_step.
  - intros [n Hn]. induction Hn as [s Hs|n y z s Hy Hne Hn IH].
    + apply root_of_root. destruct (decide (x = s)) as [->|?].
      * rewrite lookup_insert_eq. f_equal.
        eapply root_of_fun; [done|]. by apply root_of_root.
      * by rewrite lookup_insert_ne.
    + destruct (decide (x = y)) as [->|?].
      * assert (root_of p y s) as Hys by (exists (S n); by econstructor).
        rewrite <-(root_of_fun _ _ _ _ Hx Hys).
        eapply root_of_step; [apply lookup_insert_eq|].
        apply root_of_root. destruct (decide (y = r)) as [->|?].
        -- by rewrite lookup_insert_eq.
        -- by rewrite lookup_insert_ne.
      * eapply root_of_step; [|done]. by rewrite lookup_insert_ne.
Qed.

(** What a successful [_find] has done. *)
Lemma _find_Ok fuel x p r p' :
  _find fuel x p = Ok (r, p') →
  root_of p x r ∧ dom p' = dom p ∧ ∀ y s, root_of p' y s ↔ root_of p y s.
Proof.
  revert x p r p'. induction fuel as [|fuel IH]; intros x p r p'; simpl; [done|].
  unfold getitem. destruct (p !! x) as [q|] eqn:Hx; simpl; [|done].
  case_decide as Hq.
  - destruct (_find fuel q p) as [[r1 p1]|] eqn:Hf; simpl; [|done].
    intros ?; simplify_eq. destruct (IH _ _ _ _ Hf) as (Hr & Hdom & Hp1).
    assert (root_of p x r) as Hxr by (by eapply root_of_step).
    split_and!; [done| |].
    + rewrite dom_insert_L, Hdom. apply (elem_of_dom_2 (D:=gset V)) in Hx.
      by apply subseteq_union_1_L, singleton_subseteq_l.
    + intros y s. rewrite compress_root_of by (by apply Hp1). apply Hp1.
  - subst q. intros ?; simplify_eq.
    split_and!; [by apply root_of_root|done..].
Qed.

(** [_find] returns as soon as the fuel covers the chain. *)
Lemma _find_reaches fuel n x p r :
  reaches p n x r → (n < fuel)%nat → ∃ p', _find fuel x p = Ok (r, p').
Proof.
  intros Hn. revert fuel. induction Hn as [r Hr|n x y r Hx Hne Hn IH]; intros fuel Hfuel.
  - destruct fuel as [|fuel]; [lia|]. simpl. unfold getitem. rewrite Hr. simpl.
    rewrite decide_False by naive_solver. eauto.
  - destruct fuel as [|fuel]; [lia|]. simpl. unfold getitem. rewrite Hx. simpl.
    rewrite decide_True by done.
    destruct (IH fuel) as [p' ->]; [lia|]. simpl. eauto.
Qed.

Lemma find_root_of x p r : root_of p x r → ∃ p', find x p = Ok (r, p').
Proof.
  intros [n Hn]. eapply _find_reaches; [done|].
  apply reaches_bound in Hn. lia.
Qed.

Lemma find_Ok x p r p' :
  find x p = Ok (r, p') →
  root_of p x r ∧ dom p' = dom p ∧ ∀ y s, root_of p' y s ↔ root_of p y s.
Proof. apply _find_Ok. Qed.

(** Hanging the root [r1] under the root [r2]. *)
Lemma link_root_of p r1 r2 y s :
  p !! r1 = Some r1 → p !! r2 = Some r2 → r1 ≠ r2 →
  root_of (<[r1:=r2]> p) y s ↔
  ∃ s0, root_of p y s0 ∧ s = if decide (s0 = r1) then r2 else s0.
Proof.
  intros Hr1 Hr2 Hne. split.
  - intros [n Hn]. induction Hn as [s Hs|n y z s Hy Hzy Hn (s0 & Hs0 & ->)].
    + destruct (decide (r1 = s)) as [->|?].
      { rewrite lookup_insert_eq in Hs. congruence. }
      rewrite lookup_insert_ne in Hs by done.
      exists s. split; [by apply root_of_root|]. by rewrite decide_False.
    + destruct (decide (r1 = y)) as [->|?].
      * rewrite lookup_insert_eq in Hy. simplify_eq.
        rewrite (root_of_root_inv _ _ _ Hr2 Hs0).
        exists y. split; [by apply root_of_root|].
        by repeat case_decide.
      * rewrite lookup_insert_ne in Hy by done.
        exists s0. split; [by eapply root_of_step|done].
  - intros (s0 & [n Hn] & ->). induction Hn as [s Hs|n y z s Hy Hzy Hn IH].
    + case_decide as Hs1.
      * subst s. eapply root_of_step; [apply lookup_insert_eq|].
        apply root_of_root. by rewrite lookup_insert_ne.
      * apply root_of_root. by rewrite lookup_insert_ne.
    + eapply root_of_step; [|done].
      rewrite lookup_insert_ne; [done|]. intros ->. congruence.
Qed.

Lemma rep_root_of p x r : root_of p x r → rep p x = r.
Proof. intros [p' Hf]%find_root_of. unfold rep. by rewrite Hf. Qed.

Lemma forest_rep p x : forest p → x ∈ dom p → root_of p x (rep p x).
Proof. intros Hp Hx. destruct (Hp x Hx) as [r Hr]. by rewrite (rep_root_of _ _ _ Hr). Qed.

Lemma rep_dom p x : forest p → x ∈ dom p → rep p x ∈ dom p.
Proof.
  intros Hp Hx. apply elem_of_dom. eexists.
  eapply root_of_is_root, forest_rep; done.
Qed.

Lemma rep_ext p p' :
  (∀ y s, root_of p' y s ↔ root_of p y s) → ∀ y, rep p' y = rep p y.
Proof.
  intros Hpp y. unfold rep.
  destruct (find y p') as [[r1 q1]|e1] eqn:H1, (find y p) as [[r2 q2]|e2] eqn:H2; [..|done].
  - apply find_Ok in H1 as [H1 _], H2 as [H2 _].
    apply Hpp in H1. by eapply root_of_fun.
  - apply find_Ok in H1 as [H1 _]. apply Hpp, find_root_of in H1 as [? ?]. congruence.
  - apply find_Ok in H2 as [H2 _]. apply Hpp, find_root_of in H2 as [? ?]. congruence.
Qed.

(** [find] on a forest: it returns the representative and keeps all of them. *)
Lemma find_forest p x :
  forest p → x ∈ dom p →
  ∃ p', find x p = Ok (rep p x, p') ∧ forest p' ∧ dom p' = dom p ∧
        ∀ y, rep p' y = rep p y.
Proof.
  intros Hp Hx. pose proof (forest_rep _ _ Hp Hx) as Hr.
  destruct (find_root_of _ _ _ Hr) as [p' Hf]. exists p'.
  destruct (find_Ok _ _ _ _ Hf) as (_ & Hdom & Hpp).
  split_and!; [done| |done|by apply rep_ext].
  intros y Hy. rewrite Hdom in Hy. destruct (Hp y Hy) as [s Hs].
  exists s. by apply Hpp.
Qed.

Lemma link_forest p r1 r2 :
  forest p → p !! r1 = Some r1 → p !! r2 = Some r2 → r1 ≠ r2 →
  forest (<[r1:=r2]> p) ∧ dom (<[r1:=r2]> p) = dom p ∧
  ∀ y, y ∈ dom p → rep (<[r1:=r2]> p) y = if decide (rep p y = r1) then r2 else rep p y.
Proof.
  intros Hp Hr1 Hr2 Hne.
  assert (dom (<[r1:=r2]> p) = dom p) as Hdom.
  { rewrite dom_insert_L. apply (elem_of_dom_2 (D:=gset V)) in Hr1.
    by apply subseteq_union_1_L, singleton_subseteq_l. }
  split_and!; [|done|].
  - intros y Hy. rewrite Hdom in Hy. eexists.
    apply link_root_of; [done..|]. eexists. split; [by apply forest_rep|done].
  - intros y Hy. apply rep_root_of, link_root_of; [done..|].
    eexists. split; [by apply forest_rep|done].
Qed.

Lemma _union_choosen a b p rank :
  _union a b p rank =
  '(_, p', rank') ← _union_returning_choosen a b p rank; Ok (p', rank').
Proof.
  unfold _union, _union_returning_choosen.
  destruct (find a p) as [[r1 p1]|]; simpl; [|done].
  destruct (find b p1) as [[r2 p2]|]; simpl; [|done].
  case_decide; [|done].
  destruct (getitem rank r1); simpl; [|done].
  destruct (getitem rank r2); simpl; [|done].
  by repeat case_decide.
Qed.

(** What a successful union has done, on any dictionaries. *)
Lemma _union_returning_choosen_Ok a b p rank res p' rank' :
  _union_returning_choosen a b p rank = Ok (res, p', rank') →
  ∃ r1 r2, root_of p a r1 ∧ root_of p b r2 ∧ dom p' = dom p ∧ dom rank' = dom rank ∧
    match res with
    | None => r1 = r2 ∧ ∀ y s, root_of p' y s ↔ root_of p y s
    | Some (c, u) =>
        r1 ≠ r2 ∧ (c = r1 ∧ u = r2 ∨ c = r2 ∧ u = r1) ∧
        ∀ y s, root_of p' y s ↔
               ∃ s0, root_of p y s0 ∧ s = if decide (s0 = u) then c else s0
    end.
Proof.
  unfold _union_returning_choosen. intros Hu. inv_Ok Hu.
  rename v into r1, g into p1, v0 into r2, g0 into p2.
  apply find_Ok in Hstep as (Ha & Hd1 & Hp1), Hstep0 as (Hb & Hd2 & Hp2).
  apply Hp1 in Hb. exists r1, r2.
  assert (∀ y s, root_of p2 y s ↔ root_of p y s) as Hp.
  { intros y s. by rewrite Hp2, Hp1. }
  assert (p2 !! r1 = Some r1) as Hr1.
  { eapply root_of_is_root, Hp, root_of_root, root_of_is_root, Ha. }
  assert (p2 !! r2 = Some r2) as Hr2.
  { eapply root_of_is_root, Hp, root_of_root, root_of_is_root, Hb. }
  assert (∀ r, p2 !! r = Some r → dom (<[r:=r1]> p2) = dom p ∧ dom (<[r:=r2]> p2) = dom p)
    as Hdom.
  { intros r Hr%(elem_of_dom_2 (D:=gset V)). rewrite !dom_insert_L, Hd2, Hd1.
    rewrite Hd2, Hd1 in Hr. split; by apply subseteq_union_1_L, singleton_subseteq_l. }
  case_decide as Hne; [|simplify_eq; split_and!; try done; congruence].
  inv_Ok Hu.
  assert (dom (<[r2:=a1 + 1]> rank) = dom rank) as Hdr.
  { rewrite dom_insert_L. apply (elem_of_dom_2 (D:=gset V)) in Hstep0.
    by apply subseteq_union_1_L, singleton_subseteq_l. }
  repeat case_decide; simplify_eq; split_and!; try done;
    try (by apply Hdom); try (by left); try (by right);
    intros y s; rewrite link_root_of by done;
    by setoid_rewrite Hp.
Qed.

(** A union returns as soon as both vertices have a root with a rank. *)
Lemma _union_returning_choosen_returns a b p rank r1 r2 :
  root_of p a r1 → root_of p b r2 →
  is_Some (rank !! r1) → is_Some (rank !! r2) →
  ∃ res p' rank', _union_returning_choosen a b p rank = Ok (res, p', rank').
Proof.
  intros Ha Hb [k1 Hk1] [k2 Hk2]. unfold _union_returning_choosen.
  destruct (find_root_of _ _ _ Ha) as [p1 Hf1]. rewrite Hf1. simpl.
  apply find_Ok in Hf1 as (_ & _ & Hp1).
  apply Hp1 in Hb. destruct (find_root_of _ _ _ Hb) as [p2 Hf2]. rewrite Hf2. simpl.
  unfold getitem. rewrite Hk1, Hk2. simpl.
  repeat case_decide; eauto.
Qed.

Lemma rep_idemp p x : forest p → x ∈ dom p → rep p (rep p x) = rep p x.
Proof.
  intros Hp Hx. apply rep_root_of, root_of_root.
  eapply root_of_is_root, forest_rep; done.
Qed.

(** [find] under the invariant. *)
Lemma find_inv Vs p rank x :
  uf_inv Vs p rank → x ∈ Vs →
  ∃ p', find x p = Ok (rep p x, p') ∧ uf_inv Vs p' rank ∧ ∀ y, rep p' y = rep p y.
Proof.
  intros (Hp & Hd & Hr) Hx. rewrite <-Hd in Hx.
  destruct (find_forest _ _ Hp Hx) as (p' & Hf & Hp' & Hd' & Hrep).
  exists p'. unfold uf_inv. split_and!; try done. congruence.
Qed.

(** A union under the invariant, for vertices of different groups. *)
Lemma _union_returning_choosen_inv Vs p rank a b :
  uf_inv Vs p rank → a ∈ Vs → b ∈ Vs → rep p a ≠ rep p b →
  ∃ c u p' rank',
    _union_returning_choosen a b p rank = Ok (Some (c, u), p', rank') ∧
    uf_inv Vs p' rank' ∧ c ≠ u ∧
    (c = rep p a ∧ u = rep p b ∨ c = rep p b ∧ u = rep p a) ∧
    ∀ y, y ∈ Vs → rep p' y = if decide (rep p y = u) then c else rep p y.
Proof.
  intros (Hp & Hd & Hr) Ha Hb Hne. rewrite <-Hd in Ha, Hb.
  pose proof (forest_rep _ _ Hp Ha) as Hra. pose proof (forest_rep _ _ Hp Hb) as Hrb.
  destruct (_union_returning_choosen_returns a b p rank _ _ Hra Hrb)
    as (res & p' & rank' & Hu).
  { apply elem_of_dom. rewrite Hr, <-Hd. by apply rep_dom. }
  { apply elem_of_dom. rewrite Hr, <-Hd. by apply rep_dom. }
  destruct (_union_returning_choosen_Ok _ _ _ _ _ _ _ Hu)
    as (r1 & r2 & Hr1 & Hr2 & Hd' & Hdr & Hres).
  rewrite (root_of_fun _ _ _ _ Hr1 Hra), (root_of_fun _ _ _ _ Hr2 Hrb) in Hres.
  destruct res as [[c u]|]; [|naive_solver].
  destruct Hres as (_ & Hcu & Hp').
  exists c, u, p', rank'. unfold uf_inv. split_and!; try done; try congruence.
  - intros y Hy. rewrite Hd' in Hy. eexists. apply Hp'.
    eexists. split; [by apply forest_rep|done].
  - naive_solver.
  - intros y Hy. rewrite <-Hd in Hy. apply rep_root_of, Hp'.
    eexists. split; [by apply forest_rep|done].
Qed.

(** The groups after a link are those of [merge]. *)
Lemma keq_link X (f f' : V → V) a b c u :
  a ∈ X → b ∈ X → c ≠ u →
  (c = f a ∧ u = f b ∨ c = f b ∧ u = f a) →
  (∀ y, y ∈ X → f' y = if decide (f y = u) then c else f y) →
  keq X f' (merge f a b).
Proof.
  intros Ha Hb Hcu Hc Hf' x y Hx Hy. rewrite !Hf' by done. unfold merge.
  repeat case_decide; naive_solver congruence.
Qed.

Lemma keq_merge X (f g : V → V) a b :
  a ∈ X → b ∈ X → keq X f g → keq X (merge f a b) (merge g a b).
Proof.
  intros Ha Hb Hfg x y Hx Hy. unfold merge.
  pose proof (Hfg x a Hx Ha). pose proof (Hfg y a Hy Ha).
  pose proof (Hfg x b Hx Hb). pose proof (Hfg y b Hy Hb).
  pose proof (Hfg x y Hx Hy). pose proof (Hfg a b Ha Hb).
  repeat case_decide; naive_solver congruence.
Qed.

#[global] Instance keq_equiv (X : gset V) : Equivalence (keq X).
Proof.
  split.
  - by intros f x y.
  - intros f g Hfg x y Hx Hy. symmetry. by apply Hfg.
  - intros f g h Hfg Hgh x y Hx Hy. by rewrite (Hfg x y), (Hgh x y).
Qed.

End union_find.

(** ** The scan on groups *)

Section scan.
Context `{Countable V}.
Implicit Types (r : V → V) (l : list (edge (V:=V))) (Vs : gset V) (e : edge (V:=V)).

Lemma rtsc_least {A} (R E : relation A) `{!Equivalence E} x y :
  (∀ x y, R x y → E x y) → rtsc R x y → E x y.
Proof.
  intros HR Hxy. induction Hxy as [|x y z [Hxy|Hyx] _ IH]; [done|..].
  - by trans y; [apply HR|].
  - trans y; [symmetry; by apply HR|done].
Qed.

Lemma merge_coarser r a b x y : r x = r y → merge r a b x = merge r a b y.
Proof. unfold merge. intros ->. done. Qed.

Lemma merge_ends r a b : merge r a b a = merge r a b b.
Proof. unfold merge. repeat case_decide; congruence. Qed.

Lemma merge_eq r a b x y :
  merge r a b x = merge r a b y →
  r x = r y ∨ (r x = r a ∨ r x = r b) ∧ (r y = r a ∨ r y = r b).
Proof. unfold merge. repeat case_decide; naive_solver. Qed.

Lemma merge_eq_least r a b (G : relation V) `{!Equivalence G} x y :
  (∀ x y, r x = r y → G x y) → G a b → merge r a b x = merge r a b y → G x y.
Proof.
  intros Hr Hab Hm.
  assert (∀ z, r z = r a ∨ r z = r b → G z a) as Hz.
  { intros z [?|?]; [by apply Hr|]. trans b; [by apply Hr|by symmetry]. }
  apply merge_eq in Hm as [?|[Hx Hy]]; [by apply Hr|].
  trans a; [by apply Hz|symmetry; by apply Hz].
Qed.

Lemma final_coarser r l x y : r x = r y → final r l x = final r l y.
Proof.
  revert r. induction l as [|e l IH]; intros r Hxy; simpl; [done|].
  case_decide; apply IH; [done|]. by apply merge_coarser.
Qed.

Lemma accepted_keq Vs r r' l :
  keq Vs r r' → ends_in Vs l →
  accepted r l = accepted r' l ∧ rejected r l = rejected r' l ∧
  keq Vs (final r l) (final r' l).
Proof.
  intros Hk Hl. revert r r' Hk.
  induction Hl as [|e l [Hs Ht] Hl IH]; intros r r' Hk; simpl; [done|].
  pose proof (Hk _ _ Hs Ht) as Hst.
  destruct (decide (r (source_of e) = r (target_of e))) as [Hr|Hr],
    (decide (r' (source_of e) = r' (target_of e))) as [Hr'|Hr'];
  try (exfalso; destruct Hst; auto; fail).
  - destruct (IH r r' Hk) as (-> & -> & ?). done.
  - destruct (IH (merge r (source_of e) (target_of e)) (merge r' (source_of e) (target_of e)))
      as (-> & -> & ?); [|done].
    by apply keq_merge.
Qed.

Lemma accepted_ends r l e :
  e ∈ accepted r l → e ∈ l ∧ r (source_of e) ≠ r (target_of e).
Proof.
  revert r. induction l as [|e' l IH]; intros r; simpl; [by intros ?%elem_of_nil|].
  case_decide as Hr.
  - intros [? ?]%IH. split; [by right|done].
  - intros [->|[? Hne]%IH]%elem_of_cons; [split; [by left|done]|].
    split; [by right|]. intros Heq. by apply Hne, merge_coarser.
Qed.

Lemma rejected_elem_of r l e : e ∈ rejected r l → e ∈ l.
Proof.
  revert r. induction l as [|e' l IH]; intros r; simpl; [done|].
  case_decide.
  - intros [->|?%IH]%elem_of_cons; [by left|by right].
  - intros ?%IH. by right.
Qed.

Lemma accepted_NoDup r l : NoDup (accepted r l).
Proof.
  revert r. induction l as [|e l IH]; intros r; simpl; [constructor|].
  case_decide; [done|]. constructor; [|done].
  intros [_ Hne]%accepted_ends. apply Hne, merge_ends.
Qed.

Lemma accepted_length r l :
  (length (accepted r l) + length (rejected r l) = length l)%nat.
Proof.
  revert r. induction l as [|e l IH]; intros r; simpl; [done|].
  case_decide; simpl; [rewrite <-(IH r)|rewrite <-(IH (merge r (source_of e) (target_of e)))]; lia.
Qed.

(** Scanning the accepted edges alone accepts them all. *)
Lemma accepted_accepted r l :
  accepted r (accepted r l) = accepted r l ∧ final r (accepted r l) = final r l.
Proof.
  revert r. induction l as [|e l IH]; intros r; simpl; [done|].
  case_decide as Hr; [apply IH|]. simpl. rewrite !decide_False by done.
  destruct (IH (merge r (source_of e) (target_of e))) as [-> ->]. done.
Qed.

(** **** The groups of [final] *)

#[local] Instance ker_equiv {A B} (f : A → B) : Equivalence (λ x y, f x = f y).
Proof. split; [done|by intros ???|by intros ??? -> ->]. Qed.

Lemma gen_mono r (E E' : edge → Prop) x y :
  (∀ e, E e → E' e) → gen r E x y → gen r E' x y.
Proof.
  intros HE. apply rtsc_least; [apply _|].
  intros x' y' [?|(e & ? & ? & ?)]; apply rtsc_lr; [by left|].
  right. exists e. eauto.
Qed.

Lemma gen_ker r (E : edge → Prop) x y : r x = r y → gen r E x y.
Proof. intros. apply rtsc_lr. by left. Qed.

Lemma gen_edge r (E : edge → Prop) e : E e → gen r E (source_of e) (target_of e).
Proof. intros. apply rtsc_lr. right. by exists e. Qed.

Lemma final_gen r l x y : final r l x = final r l y ↔ gen r (.∈ l) x y.
Proof.
  revert r. induction l as [|e l IH]; intros r; simpl.
  - split; [apply gen_ker|]. apply (rtsc_least _ (λ x y, r x = r y)).
    intros x' y' [?|(e & ?%elem_of_nil & _)]; done.
  - assert (∀ x' y', adj (.∈ e :: l) x' y' →
              x' = source_of e ∧ y' = target_of e ∨ adj (.∈ l) x' y') as Hadj.
    { intros x' y' (e' & [->|?]%elem_of_cons & <- & <-); [by left|].
      right. by exists e'. }
    case_decide as Hr; rewrite IH; split.
    + apply gen_mono. intros e'. by right.
    + apply rtsc_least; [apply _|].
      intros x' y' [?|[[-> ->]|?]%Hadj]; [by apply gen_ker|by apply gen_ker|].
      apply rtsc_lr. by right.
    + apply rtsc_least; [apply _|]. intros x' y' [Hm|(e' & ? & <- & <-)].
      * revert Hm. apply merge_eq_least; [apply _|apply gen_ker|].
        apply gen_edge. by left.
      * apply gen_edge. by right.
    + apply rtsc_least; [apply _|].
      intros x' y' [?|[[-> ->]|?]%Hadj].
      * by apply gen_ker, merge_coarser.
      * apply gen_ker, merge_ends.
      * apply rtsc_lr. by right.
Qed.

(** **** Counting the groups *)

(** A function that tells fewer vertices apart has fewer values. *)
Lemma size_set_map_finer `{Countable A, Countable B} Vs (f : V → A) (g : V → B) :
  (∀ x y, x ∈ Vs → y ∈ Vs → g x = g y → f x = f y) →
  (size (set_map f Vs : gset A) ≤ size (set_map g Vs : gset B))%nat.
Proof.
  induction Vs as [|x X Hx IH] using set_ind_L; intros Hfg.
  - by rewrite !set_map_empty.
  - rewrite !set_map_union_L, !set_map_singleton_L.
    assert (size (set_map (D:=gset A) f X) ≤ size (set_map (D:=gset B) g X))%nat as IH'.
    { apply IH. intros y z Hy Hz. apply Hfg; set_solver. }
    destruct (decide (g x ∈ (set_map g X : gset B))) as [Hgx|Hgx].
    + assert (f x ∈ (set_map f X : gset A)) as Hfx.
      { apply elem_of_map in Hgx as (y & Hy & HyX). apply elem_of_map.
        exists y. split; [|done]. apply Hfg; set_solver. }
      rewrite !subseteq_union_1_L by (by apply singleton_subseteq_l). done.
    + rewrite (size_union {[g x]}) by set_solver.
      rewrite size_union_alt, !size_singleton.
      assert (size ((set_map f X : gset A) ∖ {[f x]}) ≤ size (set_map (D:=gset A) f X))%nat.
      { apply subseteq_size. set_solver. }
      lia.
Qed.

Lemma classes_finer Vs (f g : V → V) :
  (∀ x y, x ∈ Vs → y ∈ Vs → g x = g y → f x = f y) →
  (classes Vs f ≤ classes Vs g)%nat.
Proof. apply size_set_map_finer. Qed.

Lemma classes_keq Vs (f g : V → V) : keq Vs f g → classes Vs f = classes Vs g.
Proof.
  intros Hfg. apply Nat.le_antisymm; apply classes_finer; intros x y Hx Hy; by apply Hfg.
Qed.

Lemma classes_id Vs : classes Vs id = size Vs.
Proof.
  unfold classes. f_equal. apply set_eq. intros x. rewrite elem_of_map. naive_solver.
Qed.

Lemma classes_merge Vs r a b :
  a ∈ Vs → b ∈ Vs → r a ≠ r b → S (classes Vs (merge r a b)) = classes Vs r.
Proof.
  intros Ha Hb Hne. unfold classes.
  assert ((set_map (merge r a b) Vs : gset V) = set_map r Vs ∖ {[r a]}) as ->.
  { apply set_eq. intros z. rewrite elem_of_difference, !elem_of_map, elem_of_singleton.
    unfold merge. split.
    - intros (x & -> & Hx). case_decide; [split; [by exists b|congruence]|].
      split; [by exists x|done].
    - intros [(x & -> & Hx) Hxa]. exists x. by rewrite decide_False. }
  rewrite size_difference.
  - rewrite size_singleton.
    assert (size (set_map (D:=gset V) r Vs) ≠ 0)%nat; [|lia].
    apply size_non_empty_iff, (non_empty_inhabited (r a)), elem_of_map. eauto.
  - apply singleton_subseteq_l, elem_of_map. eauto.
Qed.

Lemma classes_final Vs r l :
  ends_in Vs l → (classes Vs (final r l) + length (accepted r l) = classes Vs r)%nat.
Proof.
  intros Hl. revert r. induction Hl as [|e l [Hs Ht] Hl IH]; intros r; simpl; [lia|].
  case_decide as Hr; [apply IH|]. simpl.
  rewrite <-(classes_merge Vs r _ _ Hs Ht Hr).
  rewrite <-(IH (merge r (source_of e) (target_of e))). lia.
Qed.

(** **** Forests: lists that the scan accepts whole *)

Lemma accepted_take r l n :
  accepted r l = l → accepted r (take n l) = take n l.
Proof.
  revert r n. induction l as [|e l IH]; intros r [|n]; simpl; try done.
  case_decide as Hr.
  - intros Hl. assert (e ∈ accepted r l) as [_ ?]%accepted_ends; [|done].
    rewrite Hl. by left.
  - intros [= Hl]. f_equal. by apply IH.
Qed.

Lemma accepted_app r l1 l2 :
  accepted r (l1 ++ l2) = accepted r l1 ++ accepted (final r l1) l2 ∧
  final r (l1 ++ l2) = final (final r l1) l2.
Proof.
  revert r. induction l1 as [|e l1 IH]; intros r; simpl; [done|].
  case_decide; [apply IH|].
  destruct (IH (merge r (source_of e) (target_of e))) as [-> ->]. done.
Qed.

Lemma ends_in_elem_of Vs l e : ends_in Vs l → e ∈ l → source_of e ∈ Vs ∧ target_of e ∈ Vs.
Proof. unfold ends_in. rewrite Forall_forall. eauto. Qed.

Lemma ends_in_subseteq Vs l l' : ends_in Vs l → (∀ e, e ∈ l' → e ∈ l) → ends_in Vs l'.
Proof. unfold ends_in. rewrite !Forall_forall. eauto. Qed.

Lemma final_keq_gen Vs r r' l l' :
  (∀ x y, gen r (.∈ l) x y ↔ gen r' (.∈ l') x y) → keq Vs (final r l) (final r' l').
Proof. intros Hg x y _ _. by rewrite !final_gen. Qed.

(** An edge of a forest joins what the other edges do not. *)
Lemma forest_no_cycle Vs r l1 e l2 :
  ends_in Vs (l1 ++ e :: l2) →
  accepted r (l1 ++ e :: l2) = l1 ++ e :: l2 →
  ¬ gen r (.∈ l1 ++ l2) (source_of e) (target_of e).
Proof.
  intros Hl Hacc Hcyc.
  pose proof (classes_final Vs r _ Hl) as Hn. rewrite Hacc in Hn.
  assert (ends_in Vs ((l1 ++ l2) ++ [e])) as Hl'.
  { eapply ends_in_subseteq; [done|]. intros e'.
    rewrite !elem_of_app, !elem_of_cons, elem_of_nil. naive_solver. }
  pose proof (classes_final Vs r _ Hl') as Hn'.
  destruct (accepted_app r (l1 ++ l2) [e]) as [Ha Hf]. rewrite Ha in Hn'.
  simpl in Hn'. rewrite decide_True in Hn' by (by apply final_gen).
  rewrite (classes_keq Vs (final r ((l1 ++ l2) ++ [e])) (final r (l1 ++ e :: l2))) in Hn'.
  - pose proof (accepted_length r (l1 ++ l2)) as Hlen.
    rewrite !length_app in *. simpl in *. lia.
  - apply final_keq_gen. intros x y. split; apply gen_mono; intros e'; cbv beta;
      rewrite !elem_of_app, !elem_of_cons, elem_of_nil; naive_solver.
Qed.

(** Conversely, the scan accepts a list in which no edge closes a cycle
    with the edges before it. *)
Lemma no_cycle_accepted r l :
  (∀ l1 e l2, l = l1 ++ e :: l2 → ¬ gen r (.∈ l1) (source_of e) (target_of e)) →
  accepted r l = l.
Proof.
  revert r. induction l as [|e l IH]; intros r Hl; simpl; [done|].
  rewrite decide_False.
  - f_equal. apply IH. intros l1 e' l2 -> Hg.
    apply (Hl (e :: l1) e' l2); [done|].
    revert Hg. apply rtsc_least; [apply _|]. intros x y [Hm|(e'' & ? & <- & <-)].
    + revert Hm. apply merge_eq_least; [apply _|apply gen_ker|].
      apply gen_edge. by left.
    + apply gen_edge. by right.
  - intros Hr. apply (Hl [] e l); [done|]. by apply gen_ker.
Qed.

(** **** The accepted edges weigh the least *)

Lemma sumw_scan r l : sumw l = sumw (accepted r l) + sumw (rejected r l).
Proof.
  revert r. induction l as [|e l IH]; intros r; simpl; [done|].
  case_decide; simpl.
  - rewrite (IH r). lia.
  - rewrite (IH (merge r (source_of e) (target_of e))). lia.
Qed.

Lemma scan_optimal Vs l :
  StronglySorted (λ e e', weight_of e ≤ weight_of e') l →
  ends_in Vs l →
  ∀ r F,
    (∀ e, e ∈ F → e ∈ l) →
    accepted r F = F →
    (∀ x y, gen r (.∈ l) x y → gen r (.∈ F) x y) →
    sumw (accepted r l) ≤ sumw F.
Proof.
  intros Hsort Hl. induction Hsort as [|e l Hsort IH Hmin]; intros r F HF Hacc Hspan.
  - destruct F as [|e F]; [done|]. destruct (elem_of_nil e) as [[] _].
    apply HF. by left.
  - apply Forall_cons in Hl as [[Hs Ht] Hl]. simpl.
    assert (∀ x, x ∈ F → r (source_of x) ≠ r (target_of x)) as Hne.
    { intros x Hx. rewrite <-Hacc in Hx. by apply accepted_ends in Hx as [_ ?]. }
    assert (ends_in Vs F) as HFV.
    { eapply ends_in_subseteq; [|done]. by constructor. }
    case_decide as Hr.
    + apply IH; try done.
      * intros x Hx. pose proof (HF x Hx) as [->|?]%elem_of_cons; [|done].
        by destruct (Hne _ Hx).
      * intros x y Hxy. apply Hspan. revert Hxy. apply gen_mono. intros e'. by right.
    + set (r1 := merge r (source_of e) (target_of e)).
      assert (∀ x y, gen r1 (.∈ F) x y ↔ gen r (.∈ F) x y) as Hgen.
      { intros x y. split; apply rtsc_least; try apply _.
        - intros x' y' [Hm|(e' & ? & <- & <-)]; [|by apply gen_edge].
          revert Hm. apply merge_eq_least; [apply _|apply gen_ker|].
          apply Hspan, gen_edge. by left.
        - intros x' y' [?|(e' & ? & <- & <-)]; [|by apply gen_edge].
          by apply gen_ker, merge_coarser. }
      pose proof (classes_final Vs r1 F HFV) as Hn1.
      pose proof (classes_final Vs r F HFV) as Hn. rewrite Hacc in Hn.
      rewrite (classes_keq Vs (final r1 F) (final r F)) in Hn1
        by (by apply final_keq_gen).
      pose proof (classes_merge Vs r _ _ Hs Ht Hr) as Hm. fold r1 in Hm.
      pose proof (accepted_length r1 F) as Hlen.
      destruct (rejected r1 F) as [|e' [|??]] eqn:Hrej; simpl in Hlen; try lia.
      assert (weight_of e ≤ weight_of e') as Hw.
      { assert (e' ∈ F) as [->|He']%HF%elem_of_cons; [|done|].
        - apply (rejected_elem_of r1). rewrite Hrej. by left.
        - rewrite Forall_forall in Hmin. by apply Hmin. }
      rewrite (sumw_scan r1 F), Hrej. simpl.
      destruct (accepted_accepted r1 F) as [Haa Hfa].
      assert (sumw (accepted r1 l) ≤ sumw (accepted r1 F)); [|lia].
      apply IH; try done.
      * intros x Hx. apply accepted_ends in Hx as [Hx Hx1].
        pose proof (HF x Hx) as [->|?]%elem_of_cons; [|done].
        destruct Hx1. apply merge_ends.
      * intros x y Hxy. apply final_gen. rewrite Hfa. apply final_gen, Hgen, Hspan.
        revert Hxy. apply rtsc_least; [apply _|].
        intros x' y' [Hm'|(e'' & ? & <- & <-)]; [|apply gen_edge; by right].
        revert Hm'. apply merge_eq_least; [apply _|apply gen_ker|].
        apply gen_edge. by left.
Qed.

End scan.

(** ** The loops *)

Section loops.
Context `{Countable V}.
Implicit Types (p : gmap V V) (rank : gmap V Z) (Vs : gset V) (e : edge (V:=V)).

Lemma mst_body_inv Vs p rank (mst : gset edge) w a b :
  uf_inv Vs p rank → a ∈ Vs → b ∈ Vs →
  ∃ p' rank', uf_inv Vs p' rank' ∧
    if decide (rep p a = rep p b)
    then mst_body (w, a, b) (p, rank, mst) = Ok (p', rank', mst) ∧
         ∀ y, rep p' y = rep p y
    else mst_body (w, a, b) (p, rank, mst) = Ok (p', rank', {[(w, a, b)]} ∪ mst) ∧
         keq Vs (rep p') (merge (rep p) a b).
Proof.
  intros Hinv Ha Hb. unfold mst_body.
  destruct (find_inv _ _ _ _ Hinv Ha) as (p1 & -> & Hinv1 & Hrep1). simpl.
  destruct (find_inv _ _ _ _ Hinv1 Hb) as (p2 & -> & Hinv2 & Hrep2). simpl.
  rewrite Hrep1. case_decide as Heq.
  - rewrite decide_False by naive_solver. exists p2, rank.
    split_and!; try done. intros y. by rewrite Hrep2, Hrep1.
  - rewrite decide_True by done. rewrite _union_choosen.
    destruct (_union_returning_choosen_inv Vs p2 rank a b)
      as (c & u & p' & rank' & -> & Hinv' & Hcu & Hc & Hrep'); try done.
    { by rewrite !Hrep2, !Hrep1. }
    simpl. exists p', rank'. split_and!; try done.
    eapply (keq_link _ _ _ _ _ c u); try done.
    + rewrite !Hrep2, !Hrep1 in Hc. naive_solver.
    + intros y Hy. rewrite (Hrep' y Hy), !Hrep2, !Hrep1. done.
Qed.

Lemma cinv_rep_ext Vs p rank p' rank' cc (m m' : gset edge) u u' :
  (∀ y, rep p' y = rep p y) → uf_inv Vs p' rank' →
  cinv Vs (CState p rank cc m u) → cinv Vs (CState p' rank' cc m' u').
Proof.
  intros Hrep Huf [_ Hdom Hmem]. simpl in *. split; simpl; [done| |].
  - rewrite Hdom. apply set_eq. intros s. rewrite !elem_of_filter. by rewrite Hrep.
  - intros s ms Hs. rewrite (Hmem s ms Hs). unfold members_of.
    apply set_eq. intros x. rewrite !elem_of_filter. by rewrite Hrep.
Qed.

Lemma clustering_body_inv Vs st w a b :
  cinv Vs st → a ∈ Vs → b ∈ Vs →
  ∃ st', clustering_body (w, a, b) st = Ok st' ∧ cinv Vs st' ∧
    if decide (rep (st_parent st) a = rep (st_parent st) b)
    then st_cc st' = st_cc st ∧ st_minspantree st' = st_minspantree st ∧
         st_union_performed st' = st_union_performed st ∧
         ∀ y, rep (st_parent st') y = rep (st_parent st) y
    else S (size (st_cc st')) = size (st_cc st) ∧
         st_minspantree st' = {[(w, a, b)]} ∪ st_minspantree st ∧
         st_union_performed st' = st_union_performed st + 1 ∧
         keq Vs (rep (st_parent st')) (merge (rep (st_parent st)) a b).
Proof.
  destruct st as [p rank cc mst up]. intros Hinv Ha Hb. unfold clustering_body. simpl.
  pose proof (cinv_uf _ _ Hinv) as Huf. pose proof (cinv_dom _ _ Hinv) as Hdcc.
  pose proof (cinv_members _ _ Hinv) as Hmem. simpl in Huf, Hdcc, Hmem.
  destruct (find_inv _ _ _ _ Huf Ha) as (p1 & -> & Huf1 & Hrep1). simpl.
  destruct (find_inv _ _ _ _ Huf1 Hb) as (p2 & -> & Huf2 & Hrep2). simpl.
  rewrite Hrep1.
  assert (∀ y, rep p2 y = rep p y) as Hrep12 by (intros; by rewrite Hrep2, Hrep1).
  destruct (decide (rep p a = rep p b)) as [Heq|Heq].
  - rewrite decide_False by naive_solver. eexists. split; [done|]. simpl.
    split_and!; try done. by eapply cinv_rep_ext.
  - rewrite decide_True by done.
    destruct (_union_returning_choosen_inv Vs p2 rank a b)
      as (c & u & p3 & rank3 & -> & Huf3 & Hcu & Hc & Hrep3); try done.
    { by rewrite !Hrep12. }
    simpl. rewrite !Hrep12 in Hc.
    destruct Huf as (Hp & Hdp & Hdr).
    assert (rep p a ∈ Vs ∧ rep p b ∈ Vs) as [Hra Hrb].
    { rewrite <-Hdp. rewrite <-Hdp in Ha, Hb. split; by apply rep_dom. }
    assert (rep p (rep p a) = rep p a ∧ rep p (rep p b) = rep p b) as [Hia Hib].
    { rewrite <-Hdp in Ha, Hb. split; by apply rep_idemp. }
    assert (c ∈ Vs ∧ u ∈ Vs ∧ rep p c = c ∧ rep p u = u) as (HcV & HuV & Hcc & Huu).
    { destruct Hc as [[-> ->]|[-> ->]]; done. }
    assert (c ∈ dom cc ∧ u ∈ dom cc) as [Hcd Hud].
    { rewrite Hdcc, !elem_of_filter. done. }
    unfold assert. rewrite !decide_True by done. simpl.
    apply elem_of_dom in Hcd as [mc Hmc], Hud as [mu Hmu].
    unfold getitem at 1 2. rewrite Hmc, Hmu. simpl.
    assert (rep p3 a = c ∧ rep p3 b = c) as [Ha3 Hb3].
    { rewrite !Hrep3, !Hrep12 by done.
      destruct Hc as [[-> ->]|[-> ->]]; repeat case_decide; done. }
    destruct (find_inv _ _ _ _ Huf3 Ha) as (p4 & -> & Huf4 & Hrep4). simpl.
    destruct (find_inv _ _ _ _ Huf4 Hb) as (p5 & -> & Huf5 & Hrep5). simpl.
    rewrite Hrep4, Ha3, Hb3, decide_True by done. simpl.
    assert (∀ y, y ∈ Vs → rep p5 y = if decide (rep p y = u) then c else rep p y) as Hrep.
    { intros y Hy. by rewrite Hrep5, Hrep4, Hrep3, !Hrep12. }
    eexists. split; [done|]. simpl. split_and!; try done.
    + split; simpl; [done| |].
      * rewrite dom_delete_L, dom_insert_lookup_L by done.
        rewrite Hdcc. apply set_eq. intros s.
        rewrite elem_of_difference, !elem_of_filter, elem_of_singleton.
        split.
        -- intros [[Hs HsV] Hsu]. split; [|done].
           rewrite Hrep by done. by rewrite Hs, decide_False.
        -- intros [Hs HsV]. rewrite Hrep in Hs by done.
           case_decide as Hsu; [|naive_solver]. subst s. congruence.
      * intros s ms. rewrite lookup_delete_Some. intros [Hsu Hs].
        unfold members_of. apply set_eq. intros x. rewrite elem_of_filter.
        destruct (decide (s = c)) as [->|Hsc].
        -- rewrite lookup_insert_eq in Hs. simplify_eq.
           rewrite (Hmem _ _ Hmc), (Hmem _ _ Hmu). unfold members_of. rewrite elem_of_union, !elem_of_filter.
           split.
           ++ intros [[Hx HxV]|[Hx HxV]]; (split; [|done]);
                rewrite Hrep by done; case_decide; congruence.
           ++ intros [Hx HxV]. rewrite Hrep in Hx by done.
              case_decide; [right|left]; done.
        -- rewrite lookup_insert_ne in Hs by done.
           rewrite (Hmem _ _ Hs). unfold members_of.
           rewrite elem_of_filter. split.
           ++ intros [Hx HxV]. split; [|done]. rewrite Hrep by done.
              case_decide; congruence.
           ++ intros [Hx HxV]. split; [|done]. rewrite Hrep in Hx by done.
              case_decide; congruence.
    + rewrite map_size_delete_Some, map_size_insert_Some.
      * assert (size cc ≠ 0)%nat; [|lia].
        apply map_size_ne_0_lookup. eauto.
      * eauto.
      * rewrite lookup_insert_ne by done. eauto.
    + by eapply (keq_link _ _ _ _ _ c u).
Qed.

(** The dictionaries built by the calls of [_make_set]. *)
Lemma make_sets_lookup Vs :
  ∀ x, (make_sets Vs).1.1 !! x = (if decide (x ∈ Vs) then Some x else None) ∧
       (make_sets Vs).1.2 !! x = (if decide (x ∈ Vs) then Some 0 else None) ∧
       (make_sets Vs).2 !! x = (if decide (x ∈ Vs) then Some {[x]} else None).
Proof.
  unfold make_sets.
  set (P := λ (st : gmap V V * gmap V Z * gmap V (gset V)) (X : gset V), ∀ x,
    st.1.1 !! x = (if decide (x ∈ X) then Some x else None) ∧
    st.1.2 !! x = (if decide (x ∈ X) then Some 0 else None) ∧
    st.2 !! x = (if decide (x ∈ X) then Some {[x]} else None)).
  change (P (set_fold _make_set (∅, ∅, ∅) Vs) Vs).
  apply set_fold_ind_L; unfold P; clear P.
  - intros x. simpl. rewrite !lookup_empty. by rewrite decide_False by set_solver.
  - intros v X [[p rank] cc] Hv IH x. simpl in *.
    destruct (IH x) as (Hp & Hr & Hc).
    destruct (decide (v = x)) as [->|Hne].
    + rewrite !lookup_insert_eq. by rewrite !decide_True by set_solver.
    + rewrite !lookup_insert_ne by done. rewrite Hp, Hr, Hc.
      destruct (decide (x ∈ X)).
      * by rewrite !decide_True by set_solver.
      * by rewrite !decide_False by set_solver.
Qed.

Lemma make_sets_inv Vs :
  let '(p, rank, cc) := make_sets Vs in
  (∀ x, rep p x = x) ∧ cinv Vs (CState p rank cc ∅ 1) ∧ size cc = size Vs.
Proof.
  pose proof (make_sets_lookup Vs) as Hl.
  destruct (make_sets Vs) as [[p rank] cc]. simpl in Hl.
  assert (dom p = Vs ∧ dom rank = Vs ∧ dom cc = Vs) as (Hdp & Hdr & Hdc).
  { split_and!; apply set_eq; intros x; rewrite elem_of_dom;
      destruct (Hl x) as (Hp & Hr & Hc); rewrite ?Hp, ?Hr, ?Hc; case_decide;
      rewrite ?is_Some_alt; naive_solver. }
  assert (∀ x, rep p x = x) as Hrep.
  { intros x. unfold rep. destruct (find x p) as [[r p']|] eqn:Hf; [|done].
    apply find_Ok in Hf as [Hr _]. destruct (Hl x) as (Hx & _).
    case_decide.
    - symmetry. eapply root_of_fun; [apply root_of_root|]; done.
    - apply root_of_dom, elem_of_dom in Hr as [? ?]. congruence. }
  split_and!; [done| |by rewrite <-Hdc, size_dom].
  split; simpl.
  - split_and!; [|done..]. intros x Hx. exists x. apply root_of_root.
    destruct (Hl x) as (-> & _). rewrite decide_True; [done|by rewrite <-Hdp].
  - rewrite Hdc. apply set_eq. intros x. rewrite elem_of_filter. naive_solver.
  - intros s m Hs. destruct (Hl s) as (_ & _ & Hc). rewrite Hc in Hs.
    case_decide; simplify_eq. unfold members_of. apply set_eq. intros x.
    rewrite elem_of_filter, elem_of_singleton, Hrep. naive_solver.
Qed.

(** The loop of [minimum_spanning_tree] accepts what the scan accepts. *)
Lemma mst_loop_scan Vs l :
  ∀ p rank (mst : gset edge) r,
    uf_inv Vs p rank → keq Vs (rep p) r → ends_in Vs l →
    ∃ p' rank',
      for_in l mst_body (p, rank, mst) = Ok (p', rank', list_to_set (accepted r l) ∪ mst) ∧
      uf_inv Vs p' rank' ∧ keq Vs (rep p') (final r l).
Proof.
  induction l as [|[[w a] b] l IH]; intros p rank mst r Hinv Hk Hl;
    cbn [for_in accepted final].
  - exists p, rank. split_and!; try done. f_equal. f_equal. set_solver.
  - apply Forall_cons in Hl as [[Ha Hb] Hl]. simpl in Ha, Hb.
    destruct (mst_body_inv Vs p rank mst w a b Hinv Ha Hb) as (p1 & rank1 & Hinv1 & Hbody).
    pose proof (Hk a b Ha Hb) as Hab. unfold source_of, target_of. cbn [fst snd].
    destruct (decide (rep p a = rep p b)) as [Heq|Hne], (decide (r a = r b)) as [Hr|Hr];
      try (exfalso; destruct Hab; auto; fail).
    + destruct Hbody as [-> Hrep]. simpl. apply IH; try done.
      intros x y Hx Hy. rewrite !Hrep. by apply Hk.
    + destruct Hbody as [-> Hrep]. simpl.
      destruct (IH p1 rank1 ({[(w, a, b)]} ∪ mst) (merge r a b)) as (p' & rank' & -> & ? & ?);
        try done.
      { etrans; [done|]. by apply keq_merge. }
      exists p', rank'. split_and!; try done. f_equal. f_equal. set_solver.
Qed.

(** The loop of [clustering] accepts the first edges that the scan accepts,
    as many as the count of unions allows. *)
Lemma clustering_loop_scan Vs nb l :
  ∀ st r,
    cinv Vs st → keq Vs (rep (st_parent st)) r → ends_in Vs l →
    ∃ st', clustering_loop nb l st = Ok st' ∧ cinv Vs st' ∧
      let acc := take (Z.to_nat (nb + 1 - st_union_performed st)) (accepted r l) in
      st_minspantree st' = list_to_set acc ∪ st_minspantree st ∧
      st_union_performed st' = st_union_performed st + Z.of_nat (length acc) ∧
      (size (st_cc st') + length acc = size (st_cc st))%nat.
Proof.
  induction l as [|[[w a] b] l IH]; intros st r Hinv Hk Hl;
    cbn [clustering_loop accepted].
  - exists st. rewrite take_nil. simpl. split_and!; try done; [set_solver|lia].
  - case_decide as Hup.
    { exists st. replace (Z.to_nat (nb + 1 - st_union_performed st)) with 0%nat by lia.
      simpl. split_and!; try done; [set_solver|lia]. }
    apply Forall_cons in Hl as [[Ha Hb] Hl]. simpl in Ha, Hb.
    destruct (clustering_body_inv Vs st w a b Hinv Ha Hb) as (st1 & -> & Hinv1 & Hbody).
    pose proof (Hk a b Ha Hb) as Hab. unfold source_of, target_of. cbn [fst snd].
    destruct (decide (rep (st_parent st) a = rep (st_parent st) b)) as [Heq|Hne],
      (decide (r a = r b)) as [Hr|Hr]; try (exfalso; destruct Hab; auto; fail).
    + destruct Hbody as (Hcc & Hmst & Hu & Hrep). rewrite bind_Ok_l.
      destruct (IH st1 r) as (st' & -> & ? & Hres); try done.
      { intros x y Hx Hy. rewrite !Hrep. by apply Hk. }
      exists st'. rewrite Hcc, Hmst, Hu in Hres. done.
    + destruct Hbody as (Hcc & Hmst & Hu & Hrep). rewrite bind_Ok_l.
      destruct (IH st1 (merge r a b)) as (st' & -> & ? & Hres); try done.
      { etrans; [done|]. by apply keq_merge. }
      exists st'. split; [done|]. split; [done|]. cbv zeta in Hres |- *.
      replace (Z.to_nat (nb + 1 - st_union_performed st))
        with (S (Z.to_nat (nb + 1 - st_union_performed st1))) by lia.
      destruct Hres as (-> & -> & Hsz). rewrite Hu in Hsz. rewrite Hmst, Hu.
      cbn [take length list_to_set]. split_and!; [set_solver|lia|lia].
Qed.

End loops.

(** ** Graphs and forests *)

Section graphs.
Context `{Countable V}.
Implicit Types (l : list (edge (V:=V))) (F : gset (edge (V:=V))) (Vs : gset V).

Lemma gen_id (E : edge (V:=V) → Prop) x y : gen id E x y ↔ connected E x y.
Proof.
  split.
  - apply rtsc_least; [apply _|]. intros x' y' [Hxy|?]; [|by apply rtsc_lr].
    simpl in Hxy. by subst.
  - apply rtsc_least; [apply _|]. intros x' y' ?. apply rtsc_lr. by right.
Qed.

Lemma connected_mono (E E' : edge (V:=V) → Prop) x y :
  (∀ e, E e → E' e) → connected E x y → connected E' x y.
Proof. rewrite <-!gen_id. apply gen_mono. Qed.

Lemma final_connected l x y : final id l x = final id l y ↔ connected (.∈ l) x y.
Proof. by rewrite final_gen, gen_id. Qed.

Lemma vertices_elem_of l x :
  x ∈ _vertices l ↔ ∃ e, e ∈ l ∧ (x = source_of e ∨ x = target_of e).
Proof.
  unfold _vertices. rewrite elem_of_list_to_set, list_elem_of_bind.
  split; intros (e & He & ?); exists e.
  - rewrite !elem_of_cons, elem_of_nil in He. naive_solver.
  - rewrite !elem_of_cons, elem_of_nil. naive_solver.
Qed.

Lemma vertices_ends l : ends_in (_vertices l) l.
Proof.
  apply Forall_forall. intros e He. rewrite !vertices_elem_of. split; exists e; eauto.
Qed.

Lemma vertices_ext l l' : (∀ e, e ∈ l ↔ e ∈ l') → _vertices l = _vertices l'.
Proof.
  intros Hl. apply set_eq. intros x. rewrite !vertices_elem_of.
  by setoid_rewrite Hl.
Qed.

(** A list that the scan accepts whole has no cycle. *)
Lemma accepted_acyclic l : accepted id l = l → acyclic (list_to_set l).
Proof.
  intros Hacc e [l1 [l2 ->]]%elem_of_list_to_set%list_elem_of_split Hcyc.
  apply (forest_no_cycle (_vertices (l1 ++ e :: l2)) id l1 e l2);
    [apply vertices_ends|done|].
  apply gen_id. revert Hcyc. apply connected_mono. intros e'.
  rewrite elem_of_list_to_set, !elem_of_app, elem_of_cons. naive_solver.
Qed.

(** The scan accepts the whole of a set without a cycle, in any order. *)
Lemma acyclic_accepted F : acyclic F → accepted id (elements F) = elements F.
Proof.
  intros HF. apply no_cycle_accepted. intros l1 e l2 Hl Hcyc.
  pose proof (NoDup_elements F) as Hnd. rewrite Hl in Hnd.
  apply NoDup_app in Hnd as (_ & Hnd & _).
  apply (HF e).
  { apply elem_of_elements. rewrite Hl, elem_of_app, elem_of_cons. eauto. }
  apply gen_id in Hcyc. revert Hcyc. apply connected_mono. intros e' He'. split.
  - apply elem_of_elements. rewrite Hl, elem_of_app. eauto.
  - intros ->. apply (Hnd e); [done|by left].
Qed.

Lemma sumw_perm l l' : l ≡ₚ l' → sumw l = sumw l'.
Proof. induction 1; simpl; lia. Qed.

Lemma total_weight_elements F : total_weight F = sumw (elements F).
Proof. done. Qed.

Lemma total_weight_list_to_set l : NoDup l → total_weight (list_to_set l) = sumw l.
Proof.
  intros Hl. rewrite total_weight_elements. apply sumw_perm.
  by apply elements_list_to_set.
Qed.

(** The connected components are as many as the values of any function
    that is constant exactly on the connected vertices. *)
Lemma components_size Vs (E : edge (V:=V) → Prop) P (f : V → V) :
  components Vs E P →
  (∀ x y, x ∈ Vs → y ∈ Vs → (f x = f y ↔ connected E x y)) →
  size P = classes Vs f.
Proof.
  intros [Hcov Hcls] Hf.
  set (g := λ x, filter (λ y, f y = f x) Vs).
  assert (P = set_map g Vs) as ->.
  { apply set_eq. intros C. rewrite elem_of_map. split.
    - intros (x & Hx & HC)%Hcls. exists x. split; [|done].
      apply set_eq. intros y. rewrite HC. unfold g. rewrite elem_of_filter.
      split.
      + intros [HyV Hxy]. split; [|done]. symmetry. by apply Hf.
      + intros [Hfy HyV]. split; [done|]. by apply Hf.
    - intros (x & -> & Hx). destruct (Hcov x Hx) as (C & HC & HxC).
      destruct (Hcls C HC) as (x' & Hx' & HC').
      assert (C = g x) as <-; [|done].
      apply set_eq. intros y. rewrite HC'. unfold g. rewrite elem_of_filter.
      destruct (proj1 (HC' x) HxC) as [_ Hc].
      assert (f x' = f x) as Hxx' by (by apply Hf).
      split.
      + intros [HyV Hxy]. split; [|done]. rewrite <-Hxx'. symmetry. by apply Hf.
      + intros [Hfy HyV]. split; [done|]. apply Hf; [done..|]. congruence. }
  apply Nat.le_antisymm; apply size_set_map_finer; intros x y Hx Hy.
  - intros Hxy. unfold g. apply set_eq. intros z. rewrite !elem_of_filter. by rewrite Hxy.
  - intros Hxy. assert (x ∈ g x) as Hxx by (unfold g; rewrite elem_of_filter; done).
    rewrite Hxy in Hxx. unfold g in Hxx. by apply elem_of_filter in Hxx as [? _].
Qed.

(** There is always such a set of components. *)
Lemma components_exist l :
  ∃ P, components (_vertices l) (.∈ l) P.
Proof.
  set (g := λ x, filter (λ y, final id l y = final id l x) (_vertices l)).
  exists (set_map g (_vertices l)). split.
  - intros x Hx. exists (g x). split; [by apply elem_of_map_2|].
    unfold g. by rewrite elem_of_filter.
  - intros C (x & -> & Hx)%elem_of_map. exists x. split; [done|].
    intros y. unfold g. rewrite elem_of_filter, <-final_connected. naive_solver.
Qed.

End graphs.

(** ** The two functions *)

Section functions.
Context `{Countable V} (vle : relation V) `{!RelDecision vle}.
Implicit Types (edges : list (edge (V:=V))).

Lemma sorted_elem_of edges e : e ∈ sorted vle edges ↔ e ∈ edges.
Proof. unfold sorted. by rewrite merge_sort_Permutation. Qed.

Lemma sorted_ends edges : ends_in (_vertices edges) (sorted vle edges).
Proof.
  eapply ends_in_subseteq; [apply vertices_ends|]. intros e. by rewrite sorted_elem_of.
Qed.

(** [minimum_spanning_tree] returns the edges that the scan accepts. *)
Lemma minimum_spanning_tree_scan edges :
  minimum_spanning_tree vle edges = Ok (list_to_set (accepted id (sorted vle edges))).
Proof.
  unfold minimum_spanning_tree.
  pose proof (make_sets_inv (_vertices edges)) as Hinit.
  destruct (make_sets (_vertices edges)) as [[p rank] cc].
  destruct Hinit as (Hrep & Hinv & _).
  destruct (mst_loop_scan (_vertices edges) (sorted vle edges) p rank ∅ id)
    as (p' & rank' & -> & _); [apply (cinv_uf _ _ Hinv)| |apply sorted_ends|].
  - intros x y _ _. by rewrite !Hrep.
  - simpl. f_equal. set_solver.
Qed.

(** [clustering] returns the first of them. *)
Lemma clustering_checked_scan edges k :
  let Vs := _vertices edges in
  let acc := take (Z.to_nat (Z.of_nat (size Vs) - k)) (accepted id (sorted vle edges)) in
  ∃ st,
    clustering_loop (Z.of_nat (size Vs) - k) (sorted vle edges) (clustering_init edges) = Ok st ∧
    clustering_checked vle edges k = Ok (st_minspantree st, st_cc st) ∧
    cinv Vs st ∧
    st_minspantree st = list_to_set acc ∧
    st_union_performed st = 1 + Z.of_nat (length acc) ∧
    (size (st_cc st) + length acc = size Vs)%nat.
Proof.
  intros Vs acc. unfold clustering_checked, clustering_init.
  pose proof (make_sets_inv (_vertices edges)) as Hinit.
  destruct (make_sets (_vertices edges)) as [[p rank] cc].
  destruct Hinit as (Hrep & Hinv & Hsz).
  destruct (clustering_loop_scan Vs (Z.of_nat (size Vs) - k) (sorted vle edges)
              (CState p rank cc ∅ 1) id Hinv)
    as (st & Hloop & Hinv' & Hmst & Hup & Hcc); [|apply sorted_ends|].
  { intros x y _ _. simpl. by rewrite !Hrep. }
  simpl in Hmst, Hup, Hcc.
  replace (Z.of_nat (size Vs) - k + 1 - 1) with (Z.of_nat (size Vs) - k) in * by lia.
  exists st. fold Vs. rewrite Hloop. simpl. split_and!; try done.
  - rewrite Hmst. set_solver.
  - subst Vs acc. lia.
Qed.

Lemma unpack_all_tuple3 edges : unpack_all (tuple3 <$> edges) = Ok edges.
Proof.
  induction edges as [|[[w a] b] edges IH]; [done|].
  rewrite fmap_cons. cbn [unpack_all tuple3 unpack fst snd]. rewrite bind_Ok_l.
  by rewrite IH.
Qed.

Lemma clustering_tuple3 edges k :
  clustering vle (tuple3 <$> edges) k = clustering_checked vle edges k.
Proof.
  unfold clustering. rewrite unpack_all_tuple3.
  assert (forallb (λ e, bool_decide (len e = 3%nat)) (tuple3 <$> edges) = true) as ->; [|done].
  apply forallb_forall. intros t (e & -> & _)%list_elem_of_In%list_elem_of_fmap.
  by apply bool_decide_eq_true.
Qed.

End functions.

(** ** Union by rank *)

Section union_by_rank.
Context `{Countable V}.
Implicit Types (parent p : gmap V V) (rank : gmap V Z) (Vs : gset V) (x y r s : V).

(** What [_find] writes: the vertex it was called on ends up directly
    under the root, and every key keeps its parent or gets the root as
    parent. *)
Lemma _find_lookup fuel x p r p' :
  _find fuel x p = Ok (r, p') →
  p' !! x = Some r ∧
  ∀ z y, p' !! z = Some y → p !! z = Some y ∨ y = r ∧ root_of p z r.
Proof.
  revert x p r p'. induction fuel as [|fuel IH]; intros x p r p'; simpl; [done|].
  unfold getitem. destruct (p !! x) as [q|] eqn:Hx; simpl; [|done].
  case_decide as Hq.
  - destruct (_find fuel q p) as [[r1 p1]|] eqn:Hf; simpl; [|done].
    intros ?; simplify_eq. destruct (IH _ _ _ _ Hf) as [Hq1 Hp1].
    apply _find_Ok in Hf as (Hr & _ & _).
    split; [apply lookup_insert_eq|]. intros z y.
    destruct (decide (x = z)) as [->|Hne].
    + rewrite lookup_insert_eq. intros ?; simplify_eq. right.
      split; [done|]. by eapply root_of_step.
    + rewrite lookup_insert_ne by done. apply Hp1.
  - subst q. intros ?; simplify_eq. split; [done|]. by left.
Qed.

(** The rule of the union, case by case. *)
Lemma _union_returning_choosen_cases a b p rank res p' rank' :
  _union_returning_choosen a b p rank = Ok (res, p', rank') →
  ∃ p1 p2 r1 r2,
    find a p = Ok (r1, p1) ∧ find b p1 = Ok (r2, p2) ∧
    (r1 = r2 ∧ res = None ∧ p' = p2 ∧ rank' = rank ∨
     r1 ≠ r2 ∧ ∃ k1 k2, rank !! r1 = Some k1 ∧ rank !! r2 = Some k2 ∧
       (k1 > k2 ∧ res = Some (r1, r2) ∧ p' = <[r2:=r1]> p2 ∧ rank' = rank ∨
        k1 = k2 ∧ res = Some (r2, r1) ∧ p' = <[r1:=r2]> p2 ∧ rank' = <[r2:=k2 + 1]> rank ∨
        k1 < k2 ∧ res = Some (r2, r1) ∧ p' = <[r1:=r2]> p2 ∧ rank' = rank)).
Proof.
  unfold _union_returning_choosen. intros Hu. inv_Ok Hu.
  rename v into r1, g into p1, v0 into r2, g0 into p2.
  exists p1, p2, r1, r2. split; [done|]. split; [done|].
  case_decide as Hne; [|left; by simplify_eq].
  right. split; [done|]. inv_Ok Hu. exists a0, a1. split; [done|]. split; [done|].
  repeat case_decide; simplify_eq; [left|right; left|right; right]; split_and!; try done; lia.
Qed.

Lemma reaches_rank Vs p rank n x r :
  uf_inv Vs p rank → rank_inv Vs p rank → reaches p n x r →
  ∃ kx kr, rank !! x = Some kx ∧ rank !! r = Some kr ∧ kx + Z.of_nat n ≤ kr.
Proof.
  intros (_ & Hdp & Hdr) (_ & Hlt & _).
  assert (∀ z, is_Some (p !! z) → is_Some (rank !! z)) as Hrk.
  { intros z. rewrite <-!elem_of_dom. by rewrite Hdp, Hdr. }
  induction 1 as [r Hr|n x y r Hx Hne Hn (ky & kr & Hky & Hkr & Hle)].
  - destruct (Hrk r) as [k Hk]; [by eauto|]. exists k, k. split_and!; [done..|lia].
  - destruct (Hrk x) as [kx Hkx]; [by eauto|]. exists kx, kr. split_and!; [done..|].
    pose proof (Hlt _ _ _ _ Hx Hne Hkx Hky). lia.
Qed.

Lemma members_of_ext Vs p p' s :
  (∀ y, rep p' y = rep p y) → members_of Vs p' s = members_of Vs p s.
Proof.
  intros Hrep. unfold members_of. apply set_eq. intros x. rewrite !elem_of_filter.
  by rewrite Hrep.
Qed.

(** [find] keeps the invariants. *)
Lemma find_rank_inv Vs p rank x r p' :
  uf_inv Vs p rank → rank_inv Vs p rank → find x p = Ok (r, p') →
  uf_inv Vs p' rank ∧ rank_inv Vs p' rank ∧ ∀ y, rep p' y = rep p y.
Proof.
  intros Huf Hrk Hf. pose proof Huf as (Hp & Hdp & Hdr). pose proof Hrk as (H0 & Hlt & Hsz).
  destruct (_find_lookup _ _ _ _ _ Hf) as [_ Hchg].
  destruct (find_Ok _ _ _ _ Hf) as (Hr & Hdom & Hroot).
  pose proof (rep_ext _ _ Hroot) as Hrep.
  split_and!; [|split_and!|done].
  - split_and!; [|congruence|done].
    intros y Hy. rewrite Hdom in Hy. destruct (Hp y Hy) as [s Hs]. exists s. by apply Hroot.
  - done.
  - intros z y kz ky Hz Hne Hkz Hky.
    destruct (Hchg _ _ Hz) as [Hz'|[-> [n Hn]]]; [by eapply Hlt|].
    destruct (reaches_rank _ _ _ _ _ _ Huf Hrk Hn) as (kz' & kr & Hkz' & Hkr & Hle).
    simplify_eq. destruct n as [|n]; [|lia]. inversion Hn; by simplify_eq.
  - intros s k Hs Hk. rewrite (members_of_ext _ _ _ _ Hrep). apply Hsz; [|done].
    eapply root_of_is_root, Hroot. by apply root_of_root.
Qed.

(** Hanging a root under another one, with the ranks of the rule. *)
Lemma link_rank_inv Vs p rank rank' c u kc ku :
  uf_inv Vs p rank → rank_inv Vs p rank →
  p !! c = Some c → p !! u = Some u → c ≠ u →
  rank !! c = Some kc → rank !! u = Some ku →
  (ku < kc ∧ rank' = rank ∨ ku = kc ∧ rank' = <[c:=kc + 1]> rank) →
  uf_inv Vs (<[u:=c]> p) rank' ∧ rank_inv Vs (<[u:=c]> p) rank'.
Proof.
  intros (Hp & Hdp & Hdr) (H0 & Hlt & Hsz) Hc Hu Hcu Hkc Hku Hrule.
  destruct (link_forest p u c Hp Hu Hc) as (Hp' & Hdp' & Hrep); [done|].
  assert (dom rank' = dom rank) as Hdr'.
  { destruct Hrule as [[_ ->]|[_ ->]]; [done|]. rewrite dom_insert_L.
    apply (elem_of_dom_2 (D:=gset V)) in Hkc. by apply subseteq_union_1_L, singleton_subseteq_l. }
  assert (∀ z k, z ≠ c → rank' !! z = Some k → rank !! z = Some k) as Hold.
  { intros z k Hz. destruct Hrule as [[_ ->]|[_ ->]]; [done|]. by rewrite lookup_insert_ne. }
  assert (∃ kc', rank' !! c = Some kc' ∧ kc ≤ kc' ∧ ku < kc' ∧
                 (kc' = kc ∨ kc' = kc + 1 ∧ ku = kc)) as (kc' & Hkc' & Hle & Hlt' & Hkc'').
  { destruct Hrule as [[? ->]|[? ->]].
    - exists kc. split_and!; [done|lia|lia|by left].
    - exists (kc + 1). rewrite lookup_insert_eq. split_and!; [done|lia|lia|right; lia]. }
  split; [unfold uf_inv; split_and!; [done|congruence..]|]. split_and!.
  - intros z k Hz. destruct (decide (z = c)) as [->|Hzc].
    + rewrite Hkc' in Hz. simplify_eq. pose proof (H0 _ _ Hkc). lia.
    + eapply H0, Hold; done.
  - intros z y kz ky Hz Hne Hkz Hky. destruct (decide (u = z)) as [->|Hzu].
    + rewrite lookup_insert_eq in Hz. simplify_eq.
      apply Hold in Hkz; [|done]. simplify_eq. lia.
    + rewrite lookup_insert_ne in Hz by done.
      assert (z ≠ c) as Hzc by (intros ->; congruence).
      apply Hold in Hkz; [|done].
      destruct (decide (y = c)) as [->|Hyc].
      * simplify_eq. pose proof (Hlt _ _ _ _ Hz Hne Hkz Hkc). lia.
      * apply Hold in Hky; [|done]. by eapply Hlt.
  - intros s k Hs Hk. destruct (decide (u = s)) as [->|Hsu].
    { rewrite lookup_insert_eq in Hs. by simplify_eq. }
    rewrite lookup_insert_ne in Hs by done.
    assert (∀ x, x ∈ Vs → (rep (<[u:=c]> p) x = s ↔
              rep p x = s ∨ s = c ∧ rep p x = u)) as Hmem.
    { intros x Hx. rewrite Hrep by (by rewrite Hdp). case_decide; naive_solver. }
    destruct (decide (s = c)) as [->|Hsc].
    + assert (members_of Vs (<[u:=c]> p) c = members_of Vs p c ∪ members_of Vs p u) as ->.
      { unfold members_of. apply set_eq. intros x.
        rewrite elem_of_union, !elem_of_filter. specialize (Hmem x). naive_solver. }
      rewrite size_union.
      2:{ unfold members_of. intros x [? _]%elem_of_filter [? _]%elem_of_filter. congruence. }
      pose proof (Hsz _ _ Hc Hkc) as Hc2. pose proof (Hsz _ _ Hu Hku) as Hu2.
      rewrite Hkc' in Hk. simplify_eq.
      destruct Hkc'' as [->|[-> ->]]; [lia|].
      pose proof (H0 _ _ Hkc). rewrite Z.pow_add_r, Z.pow_1_r by lia. lia.
    + assert (members_of Vs (<[u:=c]> p) s = members_of Vs p s) as ->.
      { unfold members_of. apply set_eq. intros x.
        rewrite !elem_of_filter. specialize (Hmem x). naive_solver. }
      apply Hsz; [done|]. by apply Hold.
Qed.

(** A union keeps the invariants. *)
Lemma union_rank_inv Vs p rank a b res p' rank' :
  uf_inv Vs p rank → rank_inv Vs p rank →
  _union_returning_choosen a b p rank = Ok (res, p', rank') →
  uf_inv Vs p' rank' ∧ rank_inv Vs p' rank'.
Proof.
  intros Huf Hrk Hun.
  apply _union_returning_choosen_cases in Hun as (p1 & p2 & r1 & r2 & Hf1 & Hf2 & Hcases).
  destruct (find_rank_inv _ _ _ _ _ _ Huf Hrk Hf1) as (Huf1 & Hrk1 & _).
  destruct (find_rank_inv _ _ _ _ _ _ Huf1 Hrk1 Hf2) as (Huf2 & Hrk2 & _).
  destruct (find_Ok _ _ _ _ Hf2) as (_ & _ & Hroot2).
  assert (p2 !! r1 = Some r1) as Hr1.
  { apply find_Ok in Hf1 as (Hr1 & _ & Hroot1).
    eapply root_of_is_root, Hroot2, Hroot1, root_of_root, root_of_is_root, Hr1. }
  assert (p2 !! r2 = Some r2) as Hr2.
  { apply find_Ok in Hf2 as (Hr2 & _ & _).
    eapply root_of_is_root, Hroot2, root_of_root, root_of_is_root, Hr2. }
  destruct Hcases as [(_ & _ & -> & ->)|(Hne & k1 & k2 & Hk1 & Hk2 & Hrule)]; [done|].
  destruct Hrule as [(? & _ & -> & ->)|[(? & _ & -> & ->)|(? & _ & -> & ->)]].
  - eapply (link_rank_inv _ _ _ _ r1 r2); try done. left. split; [lia|done].
  - eapply (link_rank_inv _ _ _ _ r2 r1); try done. right. by split.
  - eapply (link_rank_inv _ _ _ _ r2 r1); try done. left. split; [lia|done].
Qed.

Lemma mst_body_rank_inv Vs e p rank (mst : gset edge) p' rank' mst' :
  uf_inv Vs p rank → rank_inv Vs p rank →
  mst_body e (p, rank, mst) = Ok (p', rank', mst') →
  uf_inv Vs p' rank' ∧ rank_inv Vs p' rank'.
Proof.
  destruct e as [[w a] b]. intros Huf Hrk Hb. unfold mst_body in Hb. inv_Ok Hb.
  destruct (find_rank_inv _ _ _ _ _ _ Huf Hrk Hstep) as (Huf1 & Hrk1 & _).
  destruct (find_rank_inv _ _ _ _ _ _ Huf1 Hrk1 Hstep0) as (Huf2 & Hrk2 & _).
  case_decide; [|by simplify_eq].
  rewrite _union_choosen in Hb. inv_Ok Hb. inv_Ok Hstep1. simplify_eq.
  eapply union_rank_inv; eauto.
Qed.

Lemma clustering_body_rank_inv Vs e (st st' : cstate (V:=V)) :
  uf_inv Vs (st_parent st) (st_rank st) → rank_inv Vs (st_parent st) (st_rank st) →
  clustering_body e st = Ok st' →
  uf_inv Vs (st_parent st') (st_rank st') ∧ rank_inv Vs (st_parent st') (st_rank st').
Proof.
  destruct e as [[w a] b]. intros Huf Hrk Hb. unfold clustering_body in Hb. inv_Ok Hb.
  destruct (find_rank_inv _ _ _ _ _ _ Huf Hrk Hstep) as (Huf1 & Hrk1 & _).
  destruct (find_rank_inv _ _ _ _ _ _ Huf1 Hrk1 Hstep0) as (Huf2 & Hrk2 & _).
  case_decide; [|by simplify_eq].
  inv_Ok Hb.
  destruct (union_rank_inv _ _ _ _ _ _ _ _ Huf2 Hrk2 Hstep1) as [Huf3 Hrk3].
  simplify_eq. simpl.
  destruct o as [[c u]|]; [|by simplify_eq].
  inv_Ok Hstep2.
  match goal with
  | Hf1 : find a g2 = Ok (_, ?q1), Hf2 : find b ?q1 = Ok _ |- _ =>
      destruct (find_rank_inv _ _ _ _ _ _ Huf3 Hrk3 Hf1) as (Huf4 & Hrk4 & _);
      destruct (find_rank_inv _ _ _ _ _ _ Huf4 Hrk4 Hf2) as (Huf5 & Hrk5 & _)
  end.
  by simplify_eq.
Qed.

Lemma make_sets_rank_inv Vs :
  let '(p, rank, cc) := make_sets Vs in uf_inv Vs p rank ∧ rank_inv Vs p rank.
Proof.
  pose proof (make_sets_inv Vs) as Hinit. pose proof (make_sets_lookup Vs) as Hl.
  destruct (make_sets Vs) as [[p rank] cc]. destruct Hinit as (Hrep & Hinv & _).
  simpl in Hl. split; [apply (cinv_uf _ _ Hinv)|]. split_and!.
  - intros x k. destruct (Hl x) as (_ & -> & _). case_decide; naive_solver lia.
  - intros x y kx ky. destruct (Hl x) as (-> & _). case_decide; naive_solver.
  - intros s k Hs. destruct (Hl s) as (Hps & -> & _). rewrite Hps in Hs.
    case_decide as HsV; [|done]. intros ?; simplify_eq.
    assert (s ∈ members_of Vs p s) as Hin by (unfold members_of; by rewrite elem_of_filter).
    assert (size ({[s]} : gset V) ≤ size (members_of Vs p s))%nat as Hle
      by (apply subseteq_size; set_solver).
    rewrite size_singleton in Hle. simpl. lia.
Qed.

(** Registering the vertices gives a state of the disjoint sets. *)
Lemma make_sets_state Vs :
  uf_inv Vs (make_sets Vs).1.1 (make_sets Vs).1.2 ∧
  rank_inv Vs (make_sets Vs).1.1 (make_sets Vs).1.2.
Proof. pose proof (make_sets_rank_inv Vs). by destruct (make_sets Vs) as [[p rank] cc]. Qed.

(** A chain of [m] steps to a root needs [2 ^ m] vertices. *)
Lemma rank_inv_height Vs p rank m x r :
  uf_inv Vs p rank → rank_inv Vs p rank → reaches p m x r → 2 ^ Z.of_nat m ≤ Z.of_nat (size Vs).
Proof.
  intros Huf Hrk Hm.
  destruct (reaches_rank _ _ _ _ _ _ Huf Hrk Hm) as (kx & kr & Hkx & Hkr & Hle).
  destruct Hrk as (H0 & _ & Hsz).
  pose proof (Hsz _ _ (reaches_is_root _ _ _ _ Hm) Hkr) as H2.
  pose proof (H0 _ _ Hkx).
  assert (size (members_of Vs p r) ≤ size Vs)%nat
    by (apply subseteq_size; unfold members_of; set_solver).
  assert (2 ^ Z.of_nat m ≤ 2 ^ kr) by (apply Z.pow_le_mono_r; lia).
  lia.
Qed.

End union_by_rank.

(** ** Facts about the runs *)

Section runs.
Context `{Countable V} (vle : relation V) `{!RelDecision vle}.
Implicit Types (edges l : list (edge (V:=V))) (Vs : gset V) (p : gmap V V).

Lemma roots_rep Vs p rank :
  uf_inv Vs p rank → roots p = filter (λ s, rep p s = s) Vs.
Proof.
  intros (Hp & Hd & _). apply set_eq. intros x. unfold roots.
  rewrite elem_of_dom, elem_of_filter, <-Hd. split.
  - intros [y [Hx Hxy]%map_lookup_filter_Some]. simpl in Hxy. subst y.
    split; [by apply rep_root_of, root_of_root|by apply elem_of_dom].
  - intros [Hx HxV]. exists x. apply map_lookup_filter_Some. split; [|done].
    pose proof (forest_rep _ _ Hp HxV) as Hr. rewrite Hx in Hr.
    by eapply root_of_is_root.
Qed.

Lemma rep_in_dom_cc Vs st x :
  cinv Vs st → x ∈ Vs → rep (st_parent st) x ∈ dom (st_cc st).
Proof.
  intros [(Hp & Hd & _) Hdom _] Hx. rewrite Hdom, elem_of_filter. rewrite <-Hd in *.
  split; [by apply rep_idemp|by apply rep_dom].
Qed.

(** [cc] is a partition of the vertices. *)
Lemma cinv_partition Vs st :
  cinv Vs st →
  dom (st_cc st) = roots (st_parent st) ∧
  (∀ x, x ∈ Vs ↔ ∃ s m, st_cc st !! s = Some m ∧ x ∈ m) ∧
  (∀ s1 s2 m1 m2 x,
     st_cc st !! s1 = Some m1 → st_cc st !! s2 = Some m2 → x ∈ m1 → x ∈ m2 → s1 = s2).
Proof.
  intros Hinv. pose proof Hinv as [Huf Hdom Hmem]. split_and!.
  - by rewrite (roots_rep _ _ _ Huf).
  - intros x. split.
    + intros Hx. pose proof (rep_in_dom_cc _ _ _ Hinv Hx) as [m Hm]%elem_of_dom.
      exists (rep (st_parent st) x), m. split; [done|].
      rewrite (Hmem _ _ Hm). unfold members_of. by rewrite elem_of_filter.
    + intros (s & m & Hm & Hx). rewrite (Hmem _ _ Hm) in Hx.
      by apply elem_of_filter in Hx as [_ ?].
  - intros s1 s2 m1 m2 x Hm1 Hm2 Hx1 Hx2.
    rewrite (Hmem _ _ Hm1) in Hx1. rewrite (Hmem _ _ Hm2) in Hx2.
    apply elem_of_filter in Hx1 as [<- _], Hx2 as [<- _]. done.
Qed.

(** With one entry left in [cc], the loop changes neither the accepted
    edges nor [cc]. *)
Lemma clustering_loop_saturated Vs nb l :
  ∀ st, cinv Vs st → (size (st_cc st) ≤ 1)%nat → ends_in Vs l →
    ∃ st', clustering_loop nb l st = Ok st' ∧
           st_minspantree st' = st_minspantree st ∧ st_cc st' = st_cc st.
Proof.
  induction l as [|[[w a] b] l IH]; intros st Hinv Hsz Hl; cbn [clustering_loop]; [by eauto|].
  case_decide; [by eauto|].
  apply Forall_cons in Hl as [[Ha Hb] Hl]. simpl in Ha, Hb.
  destruct (clustering_body_inv Vs st w a b Hinv Ha Hb) as (st1 & -> & Hinv1 & Hbody).
  rewrite bind_Ok_l. rewrite decide_True in Hbody.
  - destruct Hbody as (Hcc & Hmst & _). rewrite <-Hcc, <-Hmst.
    apply IH; try done. by rewrite Hcc.
  - pose proof (rep_in_dom_cc _ _ _ Hinv Ha) as Ha'.
    pose proof (rep_in_dom_cc _ _ _ Hinv Hb) as Hb'.
    destruct (decide (rep (st_parent st) a = rep (st_parent st) b)) as [|Hne]; [done|].
    assert (size ({[rep (st_parent st) a; rep (st_parent st) b]} : gset V) ≤ size (dom (st_cc st)))%nat
      as Hle by (apply subseteq_size; set_solver).
    rewrite size_dom, size_union, !size_singleton in Hle by set_solver. lia.
Qed.

(** Two counts of unions that are both at least the number of vertices
    minus one give the same result. *)
Lemma clustering_loop_budget Vs nb1 nb2 l :
  Z.of_nat (size Vs) - 1 ≤ nb1 → Z.of_nat (size Vs) - 1 ≤ nb2 →
  ∀ st, cinv Vs st →
    st_union_performed st + Z.of_nat (size (st_cc st)) = Z.of_nat (size Vs) + 1 →
    ends_in Vs l →
    ∃ st1 st2, clustering_loop nb1 l st = Ok st1 ∧ clustering_loop nb2 l st = Ok st2 ∧
               st_minspantree st1 = st_minspantree st2 ∧ st_cc st1 = st_cc st2.
Proof.
  intros Hnb1 Hnb2. induction l as [|[[w a] b] l IH]; intros st Hinv Hup Hl;
    [by exists st, st|].
  destruct (decide (st_union_performed st > nb1)) as [H1|H1],
    (decide (st_union_performed st > nb2)) as [H2|H2].
  - exists st, st. cbn [clustering_loop]. by rewrite !decide_True by done.
  - destruct (clustering_loop_saturated Vs nb2 ((w, a, b) :: l) st) as (st2 & ? & ? & ?);
      [done|lia|done|].
    exists st, st2. cbn [clustering_loop]. rewrite decide_True by done. done.
  - destruct (clustering_loop_saturated Vs nb1 ((w, a, b) :: l) st) as (st1 & ? & ? & ?);
      [done|lia|done|].
    exists st1, st. cbn [clustering_loop]. rewrite (decide_True _ _ H2). done.
  - cbn [clustering_loop]. rewrite !decide_False by done.
    apply Forall_cons in Hl as [[Ha Hb] Hl]. simpl in Ha, Hb.
    destruct (clustering_body_inv Vs st w a b Hinv Ha Hb) as (st' & -> & Hinv' & Hbody).
    rewrite !bind_Ok_l. apply IH; try done.
    case_decide; destruct Hbody as (Hcc & _ & Hu & _); [rewrite Hcc, Hu; lia|lia].
Qed.

Lemma calls_union_inv Vs p rank w a b :
  uf_inv Vs p rank → a ∈ Vs → b ∈ Vs →
  calls_union (w, a, b) p = Ok (bool_decide (rep p a ≠ rep p b)).
Proof.
  intros Hinv Ha Hb. unfold calls_union.
  destruct (find_inv _ _ _ _ Hinv Ha) as (p1 & -> & Hinv1 & Hrep1). simpl.
  destruct (find_inv _ _ _ _ Hinv1 Hb) as (p2 & -> & Hinv2 & Hrep2). simpl.
  by rewrite Hrep1.
Qed.

(** The unions are as many as the accepted edges. *)
Lemma mst_unions_loop_scan Vs l :
  ∀ p rank (mst : gset edge) r n,
    uf_inv Vs p rank → keq Vs (rep p) r → ends_in Vs l →
    mst_unions_loop l (p, rank, mst) n = Ok (n + length (accepted r l))%nat.
Proof.
  induction l as [|[[w a] b] l IH]; intros p rank mst r n Hinv Hk Hl;
    cbn [mst_unions_loop accepted].
  - f_equal. simpl. lia.
  - apply Forall_cons in Hl as [[Ha Hb] Hl]. simpl in Ha, Hb.
    cbn [fst snd]. rewrite (calls_union_inv Vs p rank) by done. rewrite bind_Ok_l.
    destruct (mst_body_inv Vs p rank mst w a b Hinv Ha Hb) as (p1 & rank1 & Hinv1 & Hbody).
    pose proof (Hk a b Ha Hb) as Hab. unfold source_of, target_of. cbn [fst snd].
    destruct (decide (rep p a = rep p b)) as [Heq|Hne], (decide (r a = r b)) as [Hr|Hr];
      try (exfalso; destruct Hab; auto; fail).
    + destruct Hbody as [-> Hrep]. rewrite bind_Ok_l.
      rewrite bool_decide_eq_false_2 by naive_solver. apply IH; try done.
      intros x y Hx Hy. rewrite !Hrep. by apply Hk.
    + destruct Hbody as [-> Hrep]. rewrite bind_Ok_l.
      rewrite bool_decide_eq_true_2 by done.
      rewrite (IH _ _ _ (merge r a b)); try done.
      * f_equal. simpl. lia.
      * etrans; [done|]. by apply keq_merge.
Qed.

Lemma clustering_unions_loop_scan Vs nb l :
  ∀ st r n,
    cinv Vs st → keq Vs (rep (st_parent st)) r → ends_in Vs l →
    clustering_unions_loop nb l st n =
    Ok (n + length (take (Z.to_nat (nb + 1 - st_union_performed st)) (accepted r l)))%nat.
Proof.
  induction l as [|[[w a] b] l IH]; intros st r n Hinv Hk Hl;
    cbn [clustering_unions_loop accepted].
  - rewrite take_nil. f_equal. simpl. lia.
  - case_decide as Hup.
    { replace (Z.to_nat (nb + 1 - st_union_performed st)) with 0%nat by lia.
      f_equal. simpl. lia. }
    apply Forall_cons in Hl as [[Ha Hb] Hl]. simpl in Ha, Hb.
    rewrite (calls_union_inv Vs _ _ _ _ _ (cinv_uf _ _ Hinv)) by done. rewrite bind_Ok_l.
    destruct (clustering_body_inv Vs st w a b Hinv Ha Hb) as (st1 & -> & Hinv1 & Hbody).
    rewrite bind_Ok_l.
    pose proof (Hk a b Ha Hb) as Hab. unfold source_of, target_of. cbn [fst snd].
    destruct (decide (rep (st_parent st) a = rep (st_parent st) b)) as [Heq|Hne],
      (decide (r a = r b)) as [Hr|Hr]; try (exfalso; destruct Hab; auto; fail).
    + destruct Hbody as (Hcc & Hmst & Hu & Hrep).
      rewrite bool_decide_eq_false_2 by naive_solver.
      rewrite (IH st1 r); try done; [by rewrite Hu|].
      intros x y Hx Hy. rewrite !Hrep. by apply Hk.
    + destruct Hbody as (Hcc & Hmst & Hu & Hrep).
      rewrite bool_decide_eq_true_2 by done.
      rewrite (IH st1 (merge r a b)); try done.
      * replace (Z.to_nat (nb + 1 - st_union_performed st))
          with (S (Z.to_nat (nb + 1 - st_union_performed st1))) by lia.
        f_equal. simpl. lia.
      * etrans; [done|]. by apply keq_merge.
Qed.

Lemma clustering_init_inv edges :
  cinv (_vertices edges) (clustering_init edges) ∧
  (∀ x, rep (st_parent (clustering_init edges)) x = x) ∧
  st_minspantree (clustering_init edges) = ∅ ∧
  st_union_performed (clustering_init edges) = 1 ∧
  size (st_cc (clustering_init edges)) = size (_vertices edges) ∧
  ∀ v, st_cc (clustering_init edges) !! v =
       if decide (v ∈ _vertices edges) then Some {[v]} else None.
Proof.
  unfold clustering_init.
  pose proof (make_sets_inv (_vertices edges)) as Hinit.
  pose proof (make_sets_lookup (_vertices edges)) as Hl.
  destruct (make_sets (_vertices edges)) as [[p rank] cc].
  destruct Hinit as (Hrep & Hinv & Hsz). simpl. split_and!; try done.
  intros v. apply Hl.
Qed.

End runs.

(** ** Claims about [minimum_spanning_tree] *)

Section minimum_spanning_tree.
Context `{Countable V} (vle : relation V) `{!RelDecision vle}.
Context `{!PartialOrder vle, !Total vle}.
Implicit Types (edges : list (edge (V:=V))).

#[local] Instance edge_le_trans : Transitive (edge_le vle).
Proof.
  intros [[w1 a1] b1] [[w2 a2] b2] [[w3 a3] b3]. unfold edge_le, weight_of, source_of, target_of.
  simpl. intros [?|[-> [Ha|[-> Hb]]]] [?|[? [Ha'|[? Hb']]]]; subst; try (left; lia);
    right; (split; [lia|]); try (by left).
  - left. by trans a2.
  - right. split; [done|]. by trans b2.
Qed.

#[local] Instance edge_le_total : Total (edge_le vle).
Proof.
  intros [[w1 a1] b1] [[w2 a2] b2]. unfold edge_le, weight_of, source_of, target_of. simpl.
  destruct (Z.lt_trichotomy w1 w2) as [?|[->|?]]; [by left; left| |by right; left].
  destruct (decide (a1 = a2)) as [->|Hne].
  - destruct (total vle b1 b2); [left|right]; right; eauto.
  - destruct (total vle a1 a2) as [Ha|Ha]; [left|right]; right; (split; [done|]); left;
      (split; [done|]); intros Ha'; apply Hne; by apply (anti_symm vle).
Qed.

Lemma sorted_by_weight edges :
  StronglySorted (λ e e', weight_of e ≤ weight_of e') (sorted vle edges).
Proof.
  pose proof (StronglySorted_merge_sort (edge_le vle) edges) as Hs. fold (sorted vle edges) in Hs.
  induction Hs as [|e l _ IH Hall]; constructor; [done|].
  eapply Forall_impl; [done|]. intros e'. unfold edge_le. lia.
Qed.

(** C3: [minimum_spanning_tree] returns a set of edges without a cycle, with
    as many edges as it touches vertices minus its number of connected
    components, that is a spanning forest of the input graph and whose
    total weight is the least among all the spanning forests of that
    graph. *)
Theorem minimum_spanning_tree_minimal edges :
  ∃ mst, minimum_spanning_tree vle edges = Ok mst ∧
    acyclic mst ∧
    (∀ P, components (_vertices (elements mst)) (.∈ mst) P →
          (size mst + size P = size (_vertices (elements mst)))%nat) ∧
    spanning_forest edges mst ∧
    (∀ F, spanning_forest edges F → total_weight mst ≤ total_weight F).
Proof.
  set (A := accepted id (sorted vle edges)).
  exists (list_to_set A). destruct (accepted_accepted id (sorted vle edges)) as [HAA HfA].
  fold A in HAA, HfA.
  assert (acyclic (list_to_set A)) as Hacy by (by apply accepted_acyclic).
  assert (∀ x y, connected (.∈ edges) x y ↔ connected (.∈ (list_to_set A : gset edge)) x y)
    as Hconn.
  { intros x y. trans (connected (.∈ sorted vle edges) x y).
    { split; apply connected_mono; intros e; by rewrite sorted_elem_of. }
    rewrite <-final_connected, <-HfA, final_connected.
    split; apply connected_mono; intros e; by rewrite elem_of_list_to_set. }
  split_and!.
  - apply minimum_spanning_tree_scan.
  - done.
  - intros P HP. set (A' := elements (list_to_set A : gset edge)).
    pose proof (acyclic_accepted _ Hacy) as HA'. fold A' in HA'.
    pose proof (classes_final (_vertices A') id A' (vertices_ends A')) as Hn.
    rewrite HA', classes_id in Hn.
    assert (length A' = size (list_to_set A : gset edge)) as Hlen by done.
    rewrite (components_size _ _ _ (final id A') HP); [unfold A' in *; lia|].
    intros x y _ _. rewrite final_connected.
    split; apply connected_mono; intros e; unfold A'; by rewrite elem_of_elements.
  - split_and!; [|done|by intros x y ?%Hconn].
    intros e [He _]%elem_of_list_to_set%accepted_ends. by apply sorted_elem_of in He.
  - intros F (Hsub & HFacy & Hspan).
    rewrite total_weight_list_to_set by apply accepted_NoDup.
    rewrite total_weight_elements.
    apply (scan_optimal (_vertices edges)).
    + apply sorted_by_weight.
    + apply sorted_ends.
    + intros e He%elem_of_elements. by apply sorted_elem_of, Hsub.
    + by apply acyclic_accepted.
    + intros x y Hxy. apply gen_id. apply gen_id in Hxy.
      eapply connected_mono; [|apply Hspan].
      * intros e. by rewrite elem_of_elements.
      * revert Hxy. apply connected_mono. intros e. by rewrite sorted_elem_of.
Qed.

End minimum_spanning_tree.

(** ** Claims about [clustering] and the disjoint sets *)

Section unions.
Context `{Countable V} (vle : relation V) `{!RelDecision vle}.

(** [minimum_spanning_tree] performs one union for each edge it accepts. *)
Lemma mst_unions_scan (edges : list (edge (V:=V))) :
  mst_unions vle edges = Ok (length (accepted id (sorted vle edges))).
Proof.
  destruct (clustering_init_inv edges) as (Hinv0 & Hrep0 & _).
  unfold mst_unions. unfold clustering_init in *.
  destruct (make_sets (_vertices edges)) as [[p rank] cc]. simpl in *.
  apply (mst_unions_loop_scan (_vertices edges) _ _ _ _ _ 0%nat (cinv_uf _ _ Hinv0));
    [|apply sorted_ends].
  intros x y _ _. by rewrite !Hrep0.
Qed.

End unions.

Section clustering.
Context `{Countable V} (vle : relation V) `{!RelDecision vle}.
Implicit Types (edges : list (edge (V:=V))) (Vs : gset V).

Lemma clustering_loop_break nb l (st : cstate (V:=V)) :
  st_union_performed st > nb → clustering_loop nb l st = Ok st.
Proof. intros Hup. destruct l; simpl; [done|]. by rewrite decide_True. Qed.

Lemma classes_const Vs (f : V → V) x0 :
  x0 ∈ Vs → (∀ x y, x ∈ Vs → y ∈ Vs → f x = f y) → classes Vs f = 1%nat.
Proof.
  intros Hx0 Hf. unfold classes.
  assert ((set_map f Vs : gset V) = {[f x0]}) as ->; [|by rewrite size_singleton].
  apply set_eq. intros z. rewrite elem_of_map, elem_of_singleton. split.
  - intros (x & -> & Hx). by apply Hf.
  - intros ->. eauto.
Qed.

Lemma single_cluster Vs (st : cstate (V:=V)) :
  cinv Vs st → size (st_cc st) = 1%nat → ∃ s, st_cc st = {[s := Vs]}.
Proof.
  intros Hinv Hsz. rewrite <-size_dom in Hsz.
  apply size_1_elem_of in Hsz as [s Hs]. apply leibniz_equiv in Hs.
  destruct (dom_singleton_inv_L _ _ Hs) as [m Hm]. exists s. rewrite Hm. f_equal.
  assert (st_cc st !! s = Some m) as Hsm by (by rewrite Hm, lookup_singleton_eq).
  rewrite (cinv_members _ _ Hinv _ _ Hsm). unfold members_of.
  apply set_eq. intros x. rewrite elem_of_filter. split; [by intros [_ ?]|].
  intros Hx. split; [|done].
  pose proof (rep_in_dom_cc _ _ _ Hinv Hx) as Hr. rewrite Hs in Hr.
  by apply elem_of_singleton in Hr.
Qed.

Lemma connected_sorted edges x y :
  final id (sorted vle edges) x = final id (sorted vle edges) y ↔ connected (.∈ edges) x y.
Proof.
  rewrite final_connected. split; apply connected_mono; intros e; by rewrite sorted_elem_of.
Qed.

(** On a connected graph, one cluster asked: all the accepted edges, one
    entry with every vertex. *)
Lemma clustering_checked_connected edges :
  connected_graph edges →
  ∃ s, clustering_checked vle edges 1 =
       Ok (list_to_set (accepted id (sorted vle edges)), {[s := _vertices edges]}).
Proof.
  intros [Hne Hconn].
  destruct (clustering_checked_scan vle edges 1) as (st & _ & -> & Hinv & Hmst & _ & Hsz).
  pose proof (classes_final (_vertices edges) id _ (sorted_ends vle edges)) as Hn.
  rewrite classes_id in Hn.
  destruct edges as [|e0 edges']; [done|]. set (edges := e0 :: edges') in *.
  assert (source_of e0 ∈ _vertices edges) as Hx0.
  { apply vertices_elem_of. exists e0. split; [by left|by left]. }
  rewrite (classes_const _ _ (source_of e0)) in Hn; [|done|].
  2:{ intros x y Hx Hy. apply connected_sorted. by apply Hconn. }
  rewrite take_ge in Hmst, Hsz by lia.
  destruct (single_cluster _ _ Hinv) as [s Hs]; [lia|].
  exists s. by rewrite Hmst, Hs.
Qed.

(** C2: for a count of clusters [k >= 1], [clustering] returns a mapping
    with [min k n] entries when the graph has at most that many connected
    components, and otherwise one entry per connected component of the
    graph ([n] is the number of vertices and [P] the set of connected
    components); when [k = n] it accepts no edge and leaves every vertex
    alone in its cluster. *)
Theorem clustering_cluster_count edges k (P : gset (gset V)) :
  1 ≤ k →
  components (_vertices edges) (.∈ edges) P →
  ∃ acc cc, clustering vle (tuple3 <$> edges) k = Ok (acc, cc) ∧
    Z.of_nat (size cc) =
      Z.max (Z.min k (Z.of_nat (size (_vertices edges)))) (Z.of_nat (size P)) ∧
    (k = Z.of_nat (size (_vertices edges)) →
       acc = ∅ ∧
       ∀ v, cc !! v = if decide (v ∈ _vertices edges) then Some {[v]} else None).
Proof.
  intros Hk HP. rewrite clustering_tuple3.
  destruct (clustering_checked_scan vle edges k) as (st & Hloop & -> & Hinv & Hmst & _ & Hsz).
  exists (st_minspantree st), (st_cc st). split; [done|]. split.
  - pose proof (classes_final (_vertices edges) id _ (sorted_ends vle edges)) as Hn.
    rewrite classes_id in Hn.
    rewrite (components_size _ _ _ (final id (sorted vle edges)) HP)
      by (intros x y _ _; apply connected_sorted).
    rewrite length_take in Hsz. lia.
  - intros ->. rewrite clustering_loop_break in Hloop.
    + simplify_eq. destruct (clustering_init_inv edges) as (_ & _ & ? & _ & _ & ?). done.
    + destruct (clustering_init_inv edges) as (_ & _ & _ & -> & _). lia.
Qed.

(** C4, as the code has it: the accepted edges are a set without a cycle
    that holds exactly as many edges as unions were performed, in
    [minimum_spanning_tree] and in [clustering]; in [clustering] that is
    one less than the last value of the counter [union_performed]. *)
Theorem accepted_edges_count_unions edges k :
  (∃ mst, minimum_spanning_tree vle edges = Ok mst ∧ acyclic mst ∧
          mst_unions vle edges = Ok (size mst)) ∧
  (∃ st, clustering_loop (Z.of_nat (size (_vertices edges)) - k) (sorted vle edges)
           (clustering_init edges) = Ok st ∧
         clustering vle (tuple3 <$> edges) k = Ok (st_minspantree st, st_cc st) ∧
         acyclic (st_minspantree st) ∧
         clustering_unions vle edges k = Ok (size (st_minspantree st)) ∧
         Z.of_nat (size (st_minspantree st)) = st_union_performed st - 1).
Proof.
  destruct (accepted_accepted id (sorted vle edges)) as [HAA _].
  destruct (clustering_init_inv edges) as (Hinv0 & Hrep0 & _ & Hup0 & _).
  split.
  - eexists. split; [apply minimum_spanning_tree_scan|]. split; [by apply accepted_acyclic|].
    rewrite size_list_to_set by apply accepted_NoDup. apply mst_unions_scan.
  - destruct (clustering_checked_scan vle edges k) as (st & Hloop & Hc & Hinv & Hmst & Hup & Hsz).
    exists st. rewrite clustering_tuple3.
    pose proof (accepted_take id _ (Z.to_nat (Z.of_nat (size (_vertices edges)) - k)) HAA)
      as Htake.
    assert (size (st_minspantree st) =
            length (take (Z.to_nat (Z.of_nat (size (_vertices edges)) - k))
                      (accepted id (sorted vle edges)))) as Hlen.
    { rewrite Hmst. apply size_list_to_set. rewrite <-Htake. apply accepted_NoDup. }
    split_and!; [done|done| | |lia].
    + rewrite Hmst. by apply accepted_acyclic.
    + unfold clustering_unions.
      rewrite (clustering_unions_loop_scan (_vertices edges) _ _ _ id 0%nat Hinv0);
        [|by intros x y _ _; rewrite !Hrep0|apply sorted_ends].
      rewrite Hup0, Hlen.
      by replace (Z.of_nat (size (_vertices edges)) - k + 1 - 1)
        with (Z.of_nat (size (_vertices edges)) - k) by lia.
Qed.



(** C6: after the initialisation and after each edge of the loop of
    [clustering], the keys of [cc] are the roots of [parent] and the member
    sets of [cc] partition the vertices; so does the mapping that
    [clustering] returns. *)
Theorem clustering_cc_partition edges k l1 l2 :
  sorted vle edges = l1 ++ l2 →
  (∃ st, clustering_loop (Z.of_nat (size (_vertices edges)) - k) l1 (clustering_init edges)
           = Ok st ∧
     dom (st_cc st) = roots (st_parent st) ∧
     (∀ x, x ∈ _vertices edges ↔ ∃ s m, st_cc st !! s = Some m ∧ x ∈ m) ∧
     (∀ s1 s2 m1 m2 x,
        st_cc st !! s1 = Some m1 → st_cc st !! s2 = Some m2 → x ∈ m1 → x ∈ m2 → s1 = s2)) ∧
  (∃ acc cc, clustering vle (tuple3 <$> edges) k = Ok (acc, cc) ∧
     (∀ x, x ∈ _vertices edges ↔ ∃ s m, cc !! s = Some m ∧ x ∈ m) ∧
     (∀ s1 s2 m1 m2 x,
        cc !! s1 = Some m1 → cc !! s2 = Some m2 → x ∈ m1 → x ∈ m2 → s1 = s2)).
Proof.
  intros Hsplit. split.
  - destruct (clustering_init_inv edges) as (Hinv0 & Hrep0 & _).
    destruct (clustering_loop_scan (_vertices edges)
                (Z.of_nat (size (_vertices edges)) - k) l1 (clustering_init edges) id Hinv0)
      as (st & Hloop & Hinv & _).
    { intros x y _ _. by rewrite !Hrep0. }
    { eapply ends_in_subseteq; [apply (sorted_ends vle)|].
      intros e He. rewrite Hsplit, elem_of_app. by left. }
    exists st. split; [done|]. by apply cinv_partition.
  - rewrite clustering_tuple3.
    destruct (clustering_checked_scan vle edges k) as (st & _ & -> & Hinv & _).
    exists (st_minspantree st), (st_cc st). split; [done|].
    by destruct (cinv_partition _ _ Hinv) as (_ & ? & ?).
Qed.

(** C7: right after [_make_set v], [find v] is [v]; when a union returns
    the pair of the surviving and the absorbed root, [find] then gives the
    surviving root for both vertices; and a union returns no pair exactly
    when both vertices already had the same root.  On the states of the
    disjoint sets (dictionaries with the invariants that [_make_set],
    [_find] and the unions keep) the union of two registered vertices does
    return: a pair of the two roots when they differ, no pair when they
    are the same, and a state of the disjoint sets again. *)
Theorem disjoint_set_find_union :
  (∀ v (parent : gmap V V) rank cc,
     find v (_make_set v (parent, rank, cc)).1.1 = Ok (v, (_make_set v (parent, rank, cc)).1.1)) ∧
  (∀ a b (parent : gmap V V) rank res parent' rank',
     _union_returning_choosen a b parent rank = Ok (res, parent', rank') →
     match res with
     | Some (choosen, unchoosen) =>
         (∃ p1, find a parent' = Ok (choosen, p1)) ∧
         (∃ p2, find b parent' = Ok (choosen, p2)) ∧
         choosen ≠ unchoosen
     | None => True
     end ∧
     (res = None ↔ ∃ r p1 p2, find a parent = Ok (r, p1) ∧ find b parent = Ok (r, p2))) ∧
  (∀ (Vs : gset V) a b (parent : gmap V V) rank,
     uf_inv Vs parent rank → rank_inv Vs parent rank → a ∈ Vs → b ∈ Vs →
     ∃ ra rb res parent' rank',
       root_of parent a ra ∧ root_of parent b rb ∧
       _union_returning_choosen a b parent rank = Ok (res, parent', rank') ∧
       (ra = rb → res = None) ∧
       (ra ≠ rb → res = Some (ra, rb) ∨ res = Some (rb, ra)) ∧
       uf_inv Vs parent' rank' ∧ rank_inv Vs parent' rank').
Proof.
  split_and!.
  - intros v parent rank cc. unfold find, _make_set. simpl.
    unfold getitem. rewrite lookup_insert_eq. simpl. by rewrite decide_False by naive_solver.
  - intros a b parent rank res parent' rank' Hu.
    destruct (_union_returning_choosen_Ok _ _ _ _ _ _ _ Hu)
      as (r1 & r2 & Hr1 & Hr2 & _ & _ & Hres).
    split.
    + destruct res as [[c u]|]; [|done]. destruct Hres as (Hne & Hcu & Hp').
      assert (root_of parent' a c ∧ root_of parent' b c) as [Ha Hb].
      { split; apply Hp'; eexists; (split; [done|]);
          destruct Hcu as [[-> ->]|[-> ->]]; repeat case_decide; congruence. }
      split_and!; [by apply find_root_of..|].
      destruct Hcu as [[-> ->]|[-> ->]]; congruence.
    + split.
      * intros ->. destruct Hres as [<- _].
        destruct (find_root_of _ _ _ Hr1) as [p1 ?], (find_root_of _ _ _ Hr2) as [p2 ?].
        eauto.
      * intros (r & p1 & p2 & [Ha _]%find_Ok & [Hb _]%find_Ok).
        destruct res as [[c u]|]; [|done]. destruct Hres as [Hne _].
        destruct Hne. by rewrite (root_of_fun _ _ _ _ Hr1 Ha), (root_of_fun _ _ _ _ Hr2 Hb).
  - intros Vs a b parent rank Huf Hrk Ha Hb. pose proof Huf as (Hp & Hdp & Hdr).
    assert (root_of parent a (rep parent a)) as Hra by (apply forest_rep; [done|by rewrite Hdp]).
    assert (root_of parent b (rep parent b)) as Hrb by (apply forest_rep; [done|by rewrite Hdp]).
    assert (∀ x s, root_of parent x s → is_Some (rank !! s)) as Hrank.
    { intros x s Hs. apply elem_of_dom. rewrite Hdr, <-Hdp. apply elem_of_dom.
      eexists. by eapply root_of_is_root. }
    destruct (_union_returning_choosen_returns a b parent rank _ _ Hra Hrb)
      as (res & parent' & rank' & Hu); [by eapply Hrank..|].
    exists (rep parent a), (rep parent b), res, parent', rank'.
    destruct (union_rank_inv _ _ _ _ _ _ _ _ Huf Hrk Hu) as [Huf' Hrk'].
    destruct (_union_returning_choosen_Ok _ _ _ _ _ _ _ Hu)
      as (r1 & r2 & Hr1 & Hr2 & _ & _ & Hres).
    rewrite (root_of_fun _ _ _ _ Hr1 Hra), (root_of_fun _ _ _ _ Hr2 Hrb) in Hres.
    split_and!; try done.
    + intros Heq. destruct res as [[c u]|]; [|done]. by destruct Hres as [Hne _].
    + intros Hne. destruct res as [[c u]|]; [|by destruct Hres].
      destruct Hres as (_ & [[-> ->]|[-> ->]] & _); [by left|by right].
Qed.

(** C8: on a connected graph, [clustering] with one cluster accepts edges
    of the same total weight as [minimum_spanning_tree], and returns a
    single cluster that holds every vertex. *)
Theorem clustering_one_cluster edges :
  connected_graph edges →
  ∃ acc cc mst s,
    clustering vle (tuple3 <$> edges) 1 = Ok (acc, cc) ∧
    minimum_spanning_tree vle edges = Ok mst ∧
    total_weight acc = total_weight mst ∧
    cc = {[s := _vertices edges]}.
Proof.
  intros [s Hc]%clustering_checked_connected. rewrite clustering_tuple3, Hc.
  rewrite minimum_spanning_tree_scan. by eexists _, _, _, s.
Qed.

(** C9: every edge that [clustering] accepts is an edge of its input; the
    body of the loop leaves the accepted edges as they are or adds the
    edge it examines, and adds it only when its two ends have different
    roots at that moment; so the accepted edges have no cycle. *)
Theorem clustering_accepts_input_edges edges k :
  (∃ acc cc, clustering vle (tuple3 <$> edges) k = Ok (acc, cc) ∧
     (∀ e, e ∈ acc → e ∈ edges) ∧ acyclic acc) ∧
  (∀ e (st st' : cstate (V:=V)),
     clustering_body e st = Ok st' →
     st_minspantree st' = st_minspantree st ∧
       st_union_performed st' = st_union_performed st ∨
     st_minspantree st' = {[e]} ∪ st_minspantree st ∧
       st_union_performed st' = st_union_performed st + 1 ∧
       ∃ r1 r2, root_of (st_parent st) (source_of e) r1 ∧
                root_of (st_parent st) (target_of e) r2 ∧ r1 ≠ r2).
Proof.
  split.
  - rewrite clustering_tuple3.
    destruct (clustering_checked_scan vle edges k) as (st & _ & -> & _ & Hmst & _).
    exists (st_minspantree st), (st_cc st). split; [done|]. rewrite Hmst.
    destruct (accepted_accepted id (sorted vle edges)) as [HAA _]. split.
    + intros e He%elem_of_list_to_set.
      assert (e ∈ accepted id (sorted vle edges)) as [He' _]%accepted_ends.
      { rewrite <-(take_drop (Z.to_nat (Z.of_nat (size (_vertices edges)) - k))
                     (accepted id (sorted vle edges))), elem_of_app. by left. }
      by apply sorted_elem_of in He'.
    + by apply accepted_acyclic, accepted_take.
  - intros [[w a] b] st st' Hbody. unfold clustering_body in Hbody. inv_Ok Hbody.
    apply find_Ok in Hstep as (Ha & _ & Hp1), Hstep0 as (Hb & _ & _).
    apply Hp1 in Hb.
    case_decide as Hne.
    + right. inv_Ok Hbody. simplify_eq. simpl. split_and!; try done.
      unfold source_of, target_of. simpl. eauto.
    + left. by simplify_eq.
Qed.

(** C10: [clustering] does not check the count of clusters: with a count
    [k <= 0] it raises no error and returns what it returns for one
    cluster, which on a connected graph is the whole result of
    [minimum_spanning_tree] with a single cluster that holds every
    vertex. *)
Theorem clustering_nonpositive_count edges k :
  k ≤ 0 →
  ∃ res, clustering vle (tuple3 <$> edges) k = Ok res ∧
         clustering vle (tuple3 <$> edges) 1 = Ok res ∧
         (connected_graph edges →
            minimum_spanning_tree vle edges = Ok res.1 ∧
            ∃ s, res.2 = {[s := _vertices edges]}).
Proof.
  intros Hk. rewrite !clustering_tuple3. unfold clustering_checked. simpl.
  destruct (clustering_init_inv edges) as (Hinv0 & _ & _ & Hup0 & Hsz0 & _).
  destruct (clustering_loop_budget (_vertices edges)
              (Z.of_nat (size (_vertices edges)) - k) (Z.of_nat (size (_vertices edges)) - 1)
              (sorted vle edges)) with (st := clustering_init edges)
    as (st1 & st2 & Hl1 & Hl2 & Hmst & Hcc); [lia|lia|done|lia|apply sorted_ends|].
  rewrite Hl1, Hl2. simpl. exists (st_minspantree st1, st_cc st1).
  split_and!; [done|by rewrite Hmst, Hcc|].
  intros [s Hc]%clustering_checked_connected. unfold clustering_checked in Hc.
  simpl in Hc. rewrite Hl2 in Hc. simpl in Hc. injection Hc as Hm2 Hc2. simpl.
  split; [|exists s; congruence].
  rewrite minimum_spanning_tree_scan. congruence.
Qed.

End clustering.

(** ** The scenario of [main.py] *)

(** C1: on the graph of [main.py], [minimum_spanning_tree] returns the five
    edges (1,A,S), (2,C,D), (3,S,C), (3,B,D), (2,E,B), of total weight 11,
    which join the six vertices into one component; [clustering] with three
    clusters accepts three edges and returns three clusters that cover the
    six vertices. *)
Theorem main_scenario :
  minimum_spanning_tree str_le main_graph = Ok main_mst ∧
  total_weight main_mst = 11 ∧
  size main_mst = 5%nat ∧
  size (_vertices main_graph) = 6%nat ∧
  (∀ x y, x ∈ _vertices main_graph → y ∈ _vertices main_graph →
          connected (.∈ main_mst) x y) ∧
  ∃ acc cc, clustering str_le (tuple3 <$> main_graph) 3 = Ok (acc, cc) ∧
    size acc = 3%nat ∧ size cc = 3%nat ∧
    ∀ x, x ∈ _vertices main_graph ↔ ∃ s m, cc !! s = Some m ∧ x ∈ m.
Proof.
  assert (accepted id (sorted str_le main_graph) =
          [ (1, "A", "S"); (2, "C", "D"); (2, "E", "B"); (3, "B", "D"); (3, "S", "C") ]%string)
    as HA by (vm_compute; reflexivity).
  assert (size (_vertices main_graph) = 6%nat) as Hn by (vm_compute; reflexivity).
  assert (NoDup main_mst_edges) as Hnd by (apply (bool_decide_unpack _); vm_compute; exact I).
  assert (Forall (λ x, final id main_mst_edges x = final id main_mst_edges "A"%string)
            (elements (_vertices main_graph))) as Hconn
    by (apply (bool_decide_unpack _); vm_compute; exact I).
  split_and!.
  - rewrite minimum_spanning_tree_scan, HA. apply (f_equal Ok).
    unfold main_mst, main_mst_edges. apply set_eq. intros e. rewrite !elem_of_list_to_set, !elem_of_cons, !elem_of_nil. tauto.
  - unfold main_mst. by rewrite total_weight_list_to_set.
  - unfold main_mst. by rewrite size_list_to_set.
  - done.
  - intros x y Hx%elem_of_elements Hy%elem_of_elements.
    rewrite Forall_forall in Hconn.
    eapply connected_mono; [|apply final_connected; by rewrite (Hconn x), (Hconn y)].
    intros e. unfold main_mst. by rewrite elem_of_list_to_set.
  - rewrite clustering_tuple3.
    destruct (clustering_checked_scan str_le main_graph 3)
      as (st & _ & -> & Hinv & Hmst & _ & Hsz).
    rewrite HA, Hn in Hmst, Hsz.
    change (Z.to_nat (Z.of_nat 6 - 3)) with 3%nat in Hmst, Hsz.
    cbn [take length] in Hmst, Hsz.
    exists (st_minspantree st), (st_cc st). split_and!; [done| |lia|].
    + rewrite Hmst, size_list_to_set; [done|].
      apply (bool_decide_unpack _). vm_compute. exact I.
    + by destruct (cinv_partition _ _ Hinv) as (_ & ? & _).
Qed.

(** ** The claims on small graphs *)

Lemma one_edge_vertices x : x ∈ _vertices one_edge ↔ x = 0%nat ∨ x = 1%nat.
Proof.
  rewrite vertices_elem_of. unfold one_edge. split.
  - intros (e & ->%list_elem_of_singleton & Hx). done.
  - intros Hx. exists (1, 0%nat, 1%nat). split; [by left|done].
Qed.

Lemma one_edge_connected x y :
  x ∈ _vertices one_edge → y ∈ _vertices one_edge → connected (.∈ one_edge) x y.
Proof.
  intros Hx%one_edge_vertices Hy%one_edge_vertices. apply final_connected.
  by destruct Hx as [->| ->], Hy as [->| ->].
Qed.

Lemma one_edge_connected_graph : connected_graph one_edge.
Proof. split; [done|apply one_edge_connected]. Qed.

Lemma one_edge_components :
  components (_vertices one_edge) (.∈ one_edge) {[ {[0%nat; 1%nat]} ]}.
Proof.
  split.
  - intros x Hx%one_edge_vertices. exists {[0%nat; 1%nat]}. set_solver.
  - intros C ->%elem_of_singleton. exists 0%nat. split; [apply one_edge_vertices; by left|].
    intros y. rewrite one_edge_vertices, elem_of_union, !elem_of_singleton. split.
    + intros Hy. split; [done|]. apply one_edge_connected; apply one_edge_vertices; eauto.
    + by intros [? _].
Qed.

Lemma clustering_cluster_count_witness :
  1 ≤ 1 ∧ components (_vertices one_edge) (.∈ one_edge) {[ {[0%nat; 1%nat]} ]} ∧
  ∃ acc cc, clustering le (tuple3 <$> one_edge) 1 = Ok (acc, cc) ∧
    Z.of_nat (size cc) =
      Z.max (Z.min 1 (Z.of_nat (size (_vertices one_edge)))) (Z.of_nat (size ({[ {[0%nat; 1%nat]} ]} : gset (gset nat)))) ∧
    (1 = Z.of_nat (size (_vertices one_edge)) →
       acc = ∅ ∧
       ∀ v, cc !! v = if decide (v ∈ _vertices one_edge) then Some {[v]} else None).
Proof.
  split; [lia|]. split; [exact one_edge_components|].
  apply (clustering_cluster_count le one_edge 1 {[ {[0%nat; 1%nat]} ]});
    [lia|exact one_edge_components].
Defined.

Lemma minimum_spanning_tree_minimal_witness :
  PartialOrder le ∧ Total le ∧
  ∃ mst, minimum_spanning_tree le triangle = Ok mst ∧
    acyclic mst ∧
    (∀ P, components (_vertices (elements mst)) (.∈ mst) P →
          (size mst + size P = size (_vertices (elements mst)))%nat) ∧
    spanning_forest triangle mst ∧
    (∀ F, spanning_forest triangle F → total_weight mst ≤ total_weight F).
Proof.
  split; [apply _|]. split; [apply _|].
  apply (minimum_spanning_tree_minimal le triangle).
Defined.

(** The claim C4 as it is written fails: one union, and one edge, not none. *)
Lemma one_fewer_than_unions_fails :
  ∃ mst n, minimum_spanning_tree le one_edge = Ok mst ∧ mst_unions le one_edge = Ok n ∧
           (size mst + 1)%nat ≠ n.
Proof.
  exists (list_to_set (accepted id (sorted le one_edge))), 1%nat.
  split_and!; [apply minimum_spanning_tree_scan|by rewrite mst_unions_scan|].
  by rewrite size_list_to_set by apply accepted_NoDup.
Qed.

Lemma clustering_cc_partition_witness :
  sorted le triangle = [(1, 0%nat, 1%nat); (2, 1%nat, 2%nat)] ++ [(3, 0%nat, 2%nat)] ∧
  ∃ st, clustering_loop (Z.of_nat (size (_vertices triangle)) - 2)
          [(1, 0%nat, 1%nat); (2, 1%nat, 2%nat)] (clustering_init triangle) = Ok st ∧
        dom (st_cc st) = roots (st_parent st).
Proof.
  split; [reflexivity|].
  destruct (clustering_cc_partition le triangle 2
              [(1, 0%nat, 1%nat); (2, 1%nat, 2%nat)] [(3, 0%nat, 2%nat)])
    as [(st & Hst & Hdom & _) _]; [reflexivity|].
  exists st. by split.
Defined.

Lemma clustering_one_cluster_witness :
  connected_graph one_edge ∧
  ∃ acc cc mst s,
    clustering le (tuple3 <$> one_edge) 1 = Ok (acc, cc) ∧
    minimum_spanning_tree le one_edge = Ok mst ∧
    total_weight acc = total_weight mst ∧
    cc = {[s := _vertices one_edge]}.
Proof.
  split; [exact one_edge_connected_graph|].
  apply (clustering_one_cluster le one_edge). exact one_edge_connected_graph.
Defined.

Lemma clustering_nonpositive_count_witness :
  0 ≤ 0 ∧
  ∃ res, clustering le (tuple3 <$> one_edge) 0 = Ok res ∧
         clustering le (tuple3 <$> one_edge) 1 = Ok res ∧
         (connected_graph one_edge →
            minimum_spanning_tree le one_edge = Ok res.1 ∧
            ∃ s, res.2 = {[s := _vertices one_edge]}).
Proof.
  split; [lia|]. apply (clustering_nonpositive_count le one_edge 0). lia.
Defined.


Lemma disjoint_set_find_union_witness :
  ∃ c u p' rank',
    _union_returning_choosen 0%nat 1%nat
      (make_sets ({[0%nat; 1%nat]} : gset nat)).1.1
      (make_sets ({[0%nat; 1%nat]} : gset nat)).1.2 = Ok (Some (c, u), p', rank') ∧
    (∃ p1, find 0%nat p' = Ok (c, p1)) ∧ (∃ p2, find 1%nat p' = Ok (c, p2)) ∧ c ≠ u.
Proof.
  destruct (make_sets_state ({[0%nat; 1%nat]} : gset nat)) as [Huf Hrk].
  pose proof (make_sets_lookup ({[0%nat; 1%nat]} : gset nat)) as Hl.
  destruct (disjoint_set_find_union (V:=nat)) as (_ & Hpair & Hreturns).
  destruct (Hreturns {[0%nat; 1%nat]} 0%nat 1%nat _ _ Huf Hrk)
    as (ra & rb & res & p' & rank' & Hra & Hrb & Hu & _ & Hne & _); [set_solver..|].
  assert (ra = 0%nat) as ->.
  { eapply root_of_fun; [exact Hra|]. apply root_of_root.
    destruct (Hl 0%nat) as (-> & _). by rewrite decide_True by set_solver. }
  assert (rb = 1%nat) as ->.
  { eapply root_of_fun; [exact Hrb|]. apply root_of_root.
    destruct (Hl 1%nat) as (-> & _). by rewrite decide_True by set_solver. }
  destruct (Hpair _ _ _ _ _ _ _ Hu) as [Hfinds _].
  destruct (Hne ltac:(lia)) as [->| ->]; eauto 10.
Defined.

(** * Further properties of the code *)

(** ** [_find], [_union] and [_union_returning_choosen] *)

Section disjoint_sets.
Context `{Countable V}.
Implicit Types (parent p : gmap V V) (rank : gmap V Z) (Vs : gset V) (x y r s : V).

(** A [_find] that returns has walked a chain shorter than its fuel. *)
Lemma _find_depth fuel x p r p' :
  _find fuel x p = Ok (r, p') → ∃ n, reaches p n x r ∧ (n < fuel)%nat.
Proof.
  revert x p r p'. induction fuel as [|fuel IH]; intros x p r p'; simpl; [done|].
  unfold getitem. destruct (p !! x) as [q|] eqn:Hx; simpl; [|done].
  case_decide as Hq.
  - destruct (_find fuel q p) as [[r1 p1]|] eqn:Hf; simpl; [|done].
    intros ?; simplify_eq. destruct (IH _ _ _ _ Hf) as (n & Hn & Hlt).
    exists (S n). split; [by econstructor|lia].
  - subst q. intros ?; simplify_eq. exists 0%nat. split; [by constructor|lia].
Qed.

(** On a chain that is longer than the fuel, the recursion is cut. *)
Lemma _find_RecursionError fuel n x p r :
  reaches p n x r → (fuel ≤ n)%nat → _find fuel x p = Raise RecursionError.
Proof.
  intros Hn. revert fuel. induction Hn as [r Hr|n x y r Hx Hne Hn IH]; intros fuel Hfuel.
  - destruct fuel; [done|lia].
  - destruct fuel as [|fuel]; [done|]. simpl. unfold getitem. rewrite Hx. simpl.
    rewrite decide_True by done. by rewrite IH by lia.
Qed.

(** X2: [_find] with room for [fuel] nested calls returns [r] exactly when
    the chain of parents that starts at [v] ends, after fewer than [fuel]
    steps, at [r], a key that is its own parent; on a chain of [fuel] steps
    or more it raises [RecursionError].  On a state of the disjoint sets
    the chain of a registered vertex has [n] steps with [2 ^ n] at most the
    number of registered vertices, and [find] returns its root and leaves a
    state of the disjoint sets. *)
Theorem find_returns_root fuel v r parent :
  ((∃ parent', _find fuel v parent = Ok (r, parent')) ↔
     ∃ n, reaches parent n v r ∧ (n < fuel)%nat) ∧
  (∀ n, reaches parent n v r → (fuel ≤ n)%nat →
     _find fuel v parent = Raise RecursionError) ∧
  (∀ Vs rank, uf_inv Vs parent rank → rank_inv Vs parent rank → v ∈ Vs →
     ∃ n s parent',
       reaches parent n v s ∧ 2 ^ Z.of_nat n ≤ Z.of_nat (size Vs) ∧
       find v parent = Ok (s, parent') ∧
       uf_inv Vs parent' rank ∧ rank_inv Vs parent' rank).
Proof.
  split_and!.
  - split.
    + intros [parent' Hf]. by eapply _find_depth.
    + intros (n & Hn & Hlt). by eapply _find_reaches.
  - intros n Hn Hle. by eapply _find_RecursionError.
  - intros Vs rank Huf Hrk Hv.
    destruct (find_inv _ _ _ _ Huf Hv) as (parent' & Hf & _).
    destruct (find_rank_inv _ _ _ _ _ _ Huf Hrk Hf) as (Huf' & Hrk' & _).
    destruct (find_Ok _ _ _ _ Hf) as ([n Hn] & _).
    exists n, (rep parent v), parent'. split_and!; try done.
    exact (rank_inv_height _ _ _ _ _ _ Huf Hrk Hn).
Qed.

(** X1: a vertex that was never registered makes [find] and both unions
    raise [KeyError]: as the first argument on any dictionaries, as the
    second argument after a registered vertex of a state of the disjoint
    sets. *)
Theorem unknown_vertex_KeyError a b parent rank :
  parent !! a = None →
  find a parent = Raise KeyError ∧
  _union a b parent rank = Raise KeyError ∧
  _union_returning_choosen a b parent rank = Raise KeyError ∧
  (∀ Vs, uf_inv Vs parent rank → rank_inv Vs parent rank → b ∈ Vs →
     _union b a parent rank = Raise KeyError ∧
     _union_returning_choosen b a parent rank = Raise KeyError).
Proof.
  intros Ha.
  assert (∀ p, p !! a = None → find a p = Raise KeyError) as Hfind.
  { intros p Hp. unfold find. simpl. unfold getitem. by rewrite Hp. }
  split_and!.
  - by apply Hfind.
  - unfold _union. by rewrite Hfind.
  - unfold _union_returning_choosen. by rewrite Hfind.
  - intros Vs Huf Hrk Hb.
    destruct (find_inv _ _ _ _ Huf Hb) as (p1 & Hf & _).
    assert (p1 !! a = None) as Ha1.
    { apply find_Ok in Hf as (_ & Hdom & _).
      apply not_elem_of_dom. rewrite Hdom. by apply not_elem_of_dom. }
    unfold _union, _union_returning_choosen. rewrite Hf. simpl.
    by rewrite (Hfind p1 Ha1).
Qed.

(** X3: path compression.  After [find v] has returned [r], [v] is directly
    under [r]; the keys, the roots and the root of every key are as before;
    every key has kept its parent or now has its root [r] as parent; and
    a second [find v] returns [r] again and changes nothing. *)
Theorem find_compresses_path v r parent parent' :
  find v parent = Ok (r, parent') →
  parent' !! v = Some r ∧
  dom parent' = dom parent ∧
  roots parent' = roots parent ∧
  (∀ y s, root_of parent' y s ↔ root_of parent y s) ∧
  (∀ z y, parent' !! z = Some y → parent !! z = Some y ∨ y = r ∧ root_of parent z r) ∧
  find v parent' = Ok (r, parent').
Proof.
  intros Hf. destruct (_find_lookup _ _ _ _ _ Hf) as [Hv Hchg].
  destruct (find_Ok _ _ _ _ Hf) as (Hr & Hdom & Hroot).
  assert (parent' !! r = Some r) as Hr'.
  { eapply root_of_is_root, Hroot, Hr. }
  split_and!; try done.
  - apply set_eq. intros z. unfold roots.
    rewrite !elem_of_dom. unfold is_Some. setoid_rewrite map_lookup_filter_Some. simpl.
    split; intros (y & Hz & <-); exists z; (split; [|done]).
    + eapply root_of_is_root, Hroot. by apply root_of_root.
    + eapply root_of_is_root, Hroot. by apply root_of_root.
  - unfold find. simpl. unfold getitem. rewrite Hv. simpl.
    destruct (decide (r = v)) as [->|Hne].
    { by rewrite decide_False by naive_solver. }
    rewrite decide_True by done.
    assert (2 ≤ size parent')%nat as Hsz.
    { assert (size ({[v; r]} : gset V) ≤ size (dom parent'))%nat as Hle.
      { apply subseteq_size. apply union_subseteq.
        split; apply singleton_subseteq_l, elem_of_dom; eauto. }
      rewrite size_dom, size_union, !size_singleton in Hle by set_solver. lia. }
    destruct (size parent') as [|fuel]; [lia|]. simpl. unfold getitem. rewrite Hr'. simpl.
    rewrite decide_False by naive_solver. simpl. by rewrite insert_id.
Qed.

(** X4: [_union], which [minimum_spanning_tree] calls, and
    [_union_returning_choosen], which [clustering] calls, fail together and
    leave the same [parent] and [rank]. *)
Theorem union_variants_agree a b parent rank :
  _union a b parent rank =
  '(_, parent', rank') ← _union_returning_choosen a b parent rank; Ok (parent', rank').
Proof.
  unfold _union, _union_returning_choosen.
  destruct (find a parent) as [[r1 p1]|]; simpl; [|done].
  destruct (find b p1) as [[r2 p2]|]; simpl; [|done].
  case_decide; [|done].
  destruct (getitem rank r1); simpl; [|done].
  destruct (getitem rank r2); simpl; [|done].
  by repeat case_decide.
Qed.

End disjoint_sets.

(** ** The loops, further *)

Section loops_further.
Context `{Countable V} (vle : relation V) `{!RelDecision vle}.
Implicit Types (edges l : list (edge (V:=V))) (Vs : gset V) (F : gset (edge (V:=V))).

Lemma clustering_loop_rank_inv Vs nb l :
  ∀ st st' : cstate (V:=V),
    uf_inv Vs (st_parent st) (st_rank st) → rank_inv Vs (st_parent st) (st_rank st) →
    clustering_loop nb l st = Ok st' →
    uf_inv Vs (st_parent st') (st_rank st') ∧ rank_inv Vs (st_parent st') (st_rank st').
Proof.
  induction l as [|e l IH]; intros st st' Huf Hrk; cbn [clustering_loop].
  - by intros [= <-].
  - case_decide; [by intros [= <-]|]. intros Hl. inv_Ok Hl.
    destruct (clustering_body_rank_inv _ _ _ _ Huf Hrk Hstep). eauto.
Qed.

Lemma mst_loop_rank_inv Vs l :
  ∀ p rank (mst : gset edge) p' rank' mst',
    uf_inv Vs p rank → rank_inv Vs p rank →
    for_in l mst_body (p, rank, mst) = Ok (p', rank', mst') →
    uf_inv Vs p' rank' ∧ rank_inv Vs p' rank'.
Proof.
  induction l as [|e l IH]; intros p rank mst p' rank' mst' Huf Hrk; cbn [for_in].
  - by intros [= <- <- <-].
  - intros Hl. inv_Ok Hl. destruct a as [[p1 rank1] mst1].
    destruct (mst_body_rank_inv _ _ _ _ _ _ _ _ Huf Hrk Hstep). eauto.
Qed.

(** X5: union by rank keeps the trees shallow.  In every state that the
    loop of [clustering] or of [minimum_spanning_tree] goes through, no
    rank is negative, a key that is not a root has a smaller rank than its
    parent, a root of rank [k] has at least [2 ^ k] vertices in its group,
    and so a chain of [m] parents up to a root needs [2 ^ m] vertices. *)
Theorem union_by_rank_keeps_trees_shallow edges k l1 l2 :
  sorted vle edges = l1 ++ l2 →
  (∃ st, clustering_loop (Z.of_nat (size (_vertices edges)) - k) l1 (clustering_init edges)
           = Ok st ∧
     rank_inv (_vertices edges) (st_parent st) (st_rank st) ∧
     ∀ m x r, reaches (st_parent st) m x r →
              2 ^ Z.of_nat m ≤ Z.of_nat (size (_vertices edges))) ∧
  (∃ p rank mst,
     for_in l1 mst_body ((make_sets (_vertices edges)).1.1, (make_sets (_vertices edges)).1.2, ∅)
       = Ok (p, rank, mst) ∧
     rank_inv (_vertices edges) p rank ∧
     ∀ m x r, reaches p m x r → 2 ^ Z.of_nat m ≤ Z.of_nat (size (_vertices edges))).
Proof.
  intros Hsplit.
  assert (ends_in (_vertices edges) l1) as Hl1.
  { eapply ends_in_subseteq; [apply (sorted_ends vle)|].
    intros e He. rewrite Hsplit, elem_of_app. by left. }
  destruct (clustering_init_inv edges) as (Hinv0 & Hrep0 & _).
  pose proof (make_sets_rank_inv (_vertices edges)) as Hrk0.
  split.
  - destruct (clustering_loop_scan (_vertices edges)
                (Z.of_nat (size (_vertices edges)) - k) l1 (clustering_init edges) id Hinv0)
      as (st & Hloop & _); [by intros x y _ _; rewrite !Hrep0|done|].
    exists st. split; [done|].
    assert (rank_inv (_vertices edges) (st_parent (clustering_init edges))
              (st_rank (clustering_init edges))) as Hrk00.
    { unfold clustering_init. destruct (make_sets (_vertices edges)) as [[??]?]. apply Hrk0. }
    destruct (clustering_loop_rank_inv _ _ _ _ _ (cinv_uf _ _ Hinv0) Hrk00 Hloop) as [Huf Hrk].
    split; [done|]. intros m x r Hm. exact (rank_inv_height _ _ _ _ _ _ Huf Hrk Hm).
  - unfold clustering_init in *. destruct (make_sets (_vertices edges)) as [[p0 rank0] cc0].
    simpl in *. destruct Hrk0 as [Huf0 Hrk0].
    destruct (mst_loop_scan (_vertices edges) l1 p0 rank0 ∅ id Huf0)
      as (p & rank & Hloop & _); [by intros x y _ _; rewrite !Hrep0|done|].
    eexists p, rank, _. split; [done|].
    destruct (mst_loop_rank_inv _ _ _ _ _ _ _ _ Huf0 Hrk0 Hloop) as [Huf Hrk].
    split; [done|]. intros m x r Hm. exact (rank_inv_height _ _ _ _ _ _ Huf Hrk Hm).
Qed.

(** The groups at the end of the loop of [clustering] are those of the
    scan of the edges it accepted. *)
Lemma clustering_loop_kernel Vs nb l :
  ∀ (st : cstate (V:=V)) r st',
    cinv Vs st → keq Vs (rep (st_parent st)) r → ends_in Vs l →
    clustering_loop nb l st = Ok st' →
    keq Vs (rep (st_parent st'))
      (final r (take (Z.to_nat (nb + 1 - st_union_performed st)) (accepted r l))).
Proof.
  induction l as [|[[w a] b] l IH]; intros st r st' Hinv Hk Hl;
    cbn [clustering_loop accepted].
  - intros [= <-]. by rewrite take_nil.
  - case_decide as Hup.
    { intros [= <-]. by replace (Z.to_nat (nb + 1 - st_union_performed st)) with 0%nat by lia. }
    apply Forall_cons in Hl as [[Ha Hb] Hl]. simpl in Ha, Hb.
    destruct (clustering_body_inv Vs st w a b Hinv Ha Hb) as (st1 & -> & Hinv1 & Hbody).
    rewrite bind_Ok_l. intros Hloop.
    pose proof (Hk a b Ha Hb) as Hab. unfold source_of, target_of. cbn [fst snd].
    destruct (decide (rep (st_parent st) a = rep (st_parent st) b)) as [Heq|Hne],
      (decide (r a = r b)) as [Hr|Hr]; try (exfalso; destruct Hab; auto; fail).
    + destruct Hbody as (_ & _ & Hu & Hrep). rewrite <-Hu. apply IH; try done.
      intros x y Hx Hy. rewrite !Hrep. by apply Hk.
    + destruct Hbody as (_ & _ & Hu & Hrep).
      replace (Z.to_nat (nb + 1 - st_union_performed st))
        with (S (Z.to_nat (nb + 1 - st_union_performed st1))) by lia.
      cbn [take final source_of target_of fst snd]. rewrite decide_False by done.
      apply IH; try done. etrans; [done|]. by apply keq_merge.
Qed.

(** X6: the mapping that [clustering] returns holds the connected components
    of the graph made of the accepted edges: two vertices are in one member
    set exactly when accepted edges join them. *)
Theorem clustering_clusters_are_components edges k :
  ∃ acc cc, clustering vle (tuple3 <$> edges) k = Ok (acc, cc) ∧
    ∀ x y, x ∈ _vertices edges → y ∈ _vertices edges →
      ((∃ s m, cc !! s = Some m ∧ x ∈ m ∧ y ∈ m) ↔ connected (.∈ acc) x y).
Proof.
  rewrite clustering_tuple3.
  destruct (clustering_checked_scan vle edges k) as (st & Hloop & -> & Hinv & Hmst & _).
  destruct (clustering_init_inv edges) as (Hinv0 & Hrep0 & _ & Hup0 & _).
  pose proof (clustering_loop_kernel _ _ _ _ id _ Hinv0
                ltac:(by intros ? ? _ _; rewrite !Hrep0) (sorted_ends vle edges) Hloop) as Hker.
  rewrite Hup0 in Hker.
  replace (Z.of_nat (size (_vertices edges)) - k + 1 - 1)
    with (Z.of_nat (size (_vertices edges)) - k) in Hker by lia.
  exists (st_minspantree st), (st_cc st). split; [done|]. intros x y Hx Hy.
  assert (connected (.∈ st_minspantree st) x y ↔
          rep (st_parent st) x = rep (st_parent st) y) as ->.
  { rewrite (Hker x y Hx Hy), final_connected, Hmst.
    split; apply connected_mono; intros e; by rewrite elem_of_list_to_set. }
  split.
  - intros (s & m & Hm & Hxm & Hym). rewrite (cinv_members _ _ Hinv _ _ Hm) in Hxm, Hym.
    apply elem_of_filter in Hxm as [-> _], Hym as [-> _]. done.
  - intros Hxy. pose proof (rep_in_dom_cc _ _ _ Hinv Hx) as [m Hm]%elem_of_dom.
    exists (rep (st_parent st) x), m. split; [done|].
    rewrite (cinv_members _ _ Hinv _ _ Hm). unfold members_of.
    by rewrite !elem_of_filter.
Qed.

(** X7: [clustering] accepts some of the edges that [minimum_spanning_tree]
    returns, as many as [n - k] allows; asking for more clusters accepts
    fewer of them. *)
Theorem clustering_accepts_mst_edges edges k k' :
  k ≤ k' →
  ∃ acc cc acc' cc' mst,
    clustering vle (tuple3 <$> edges) k = Ok (acc, cc) ∧
    clustering vle (tuple3 <$> edges) k' = Ok (acc', cc') ∧
    minimum_spanning_tree vle edges = Ok mst ∧
    acc' ⊆ acc ∧ acc ⊆ mst ∧
    Z.of_nat (size acc) =
      Z.min (Z.max 0 (Z.of_nat (size (_vertices edges)) - k)) (Z.of_nat (size mst)).
Proof.
  intros Hk. rewrite !clustering_tuple3, minimum_spanning_tree_scan.
  destruct (clustering_checked_scan vle edges k) as (st & _ & -> & _ & Hmst & _).
  destruct (clustering_checked_scan vle edges k') as (st' & _ & -> & _ & Hmst' & _).
  eexists _, _, _, _, _. split_and!; try done.
  - rewrite Hmst, Hmst'. intros e. rewrite !elem_of_list_to_set.
    set (A := accepted id (sorted vle edges)).
    set (b := Z.to_nat (Z.of_nat (size (_vertices edges)) - k)).
    set (b' := Z.to_nat (Z.of_nat (size (_vertices edges)) - k')).
    assert (take b' A = take b' (take b A)) as ->.
    { rewrite take_take. f_equal. lia. }
    rewrite <-(take_drop b' (take b A)) at 2. rewrite elem_of_app. by left.
  - rewrite Hmst. intros e. rewrite !elem_of_list_to_set.
    rewrite <-(take_drop (Z.to_nat (Z.of_nat (size (_vertices edges)) - k))
                 (accepted id (sorted vle edges))) at 2.
    rewrite elem_of_app. by left.
  - rewrite Hmst. rewrite !size_list_to_set.
    + rewrite length_take. lia.
    + apply accepted_NoDup.
    + destruct (accepted_accepted id (sorted vle edges)) as [HAA _].
      rewrite <-(accepted_take id _ _ HAA). apply accepted_NoDup.
Qed.

(** X8: a count of clusters that is at least the number of vertices is not
    refused: [clustering] accepts no edge and returns every vertex alone in
    its own cluster. *)
Theorem clustering_too_many_clusters edges k :
  Z.of_nat (size (_vertices edges)) ≤ k →
  ∃ cc, clustering vle (tuple3 <$> edges) k = Ok (∅, cc) ∧
        ∀ v, cc !! v = if decide (v ∈ _vertices edges) then Some {[v]} else None.
Proof.
  intros Hk. rewrite clustering_tuple3. unfold clustering_checked.
  destruct (clustering_init_inv edges) as (_ & _ & Hmst & Hup & _ & Hcc).
  rewrite clustering_loop_break by lia. simpl. rewrite Hmst. eauto.
Qed.

(** X9: on the empty graph both functions return the empty result. *)
Theorem empty_graph k :
  minimum_spanning_tree vle [] = Ok ∅ ∧ clustering vle [] k = Ok (∅, ∅).
Proof.
  split; [by rewrite minimum_spanning_tree_scan|].
  change (@nil (pytuple (V:=V))) with (tuple3 <$> (@nil (edge (V:=V)))).
  rewrite clustering_tuple3. unfold clustering_checked.
  destruct (clustering_init_inv (@nil (edge (V:=V)))) as (_ & _ & Hmst & _ & _ & Hcc).
  change (sorted vle (@nil (edge (V:=V)))) with (@nil (edge (V:=V))). simpl. rewrite Hmst.
  assert (st_cc (clustering_init (@nil (edge (V:=V)))) = ∅) as ->; [|done].
  apply map_eq. intros v. rewrite Hcc, lookup_empty. by rewrite decide_False by set_solver.
Qed.

Lemma acyclic_simple F :
  acyclic F →
  (∀ e, e ∈ F → source_of e ≠ target_of e) ∧
  (∀ e e', e ∈ F → e' ∈ F →
     source_of e = source_of e' ∧ target_of e = target_of e' ∨
     source_of e = target_of e' ∧ target_of e = source_of e' → e = e').
Proof.
  intros HF. split.
  - intros e He Heq. apply (HF e He). rewrite Heq. reflexivity.
  - intros e e' He He' Hends. destruct (decide (e = e')) as [|Hne]; [done|].
    destruct (HF e He). destruct Hends as [[-> ->]|[-> ->]].
    + apply rtsc_lr. exists e'. eauto.
    + apply rtsc_rl. exists e'. eauto.
Qed.

(** X10: the edges that either function returns make a simple graph: no
    edge from a vertex to itself, and no two edges between the same two
    vertices. *)
Theorem results_are_simple_graphs edges k :
  ∃ mst acc cc,
    minimum_spanning_tree vle edges = Ok mst ∧
    clustering vle (tuple3 <$> edges) k = Ok (acc, cc) ∧
    ∀ F, F = mst ∨ F = acc →
      (∀ e, e ∈ F → source_of e ≠ target_of e) ∧
      (∀ e e', e ∈ F → e' ∈ F →
         source_of e = source_of e' ∧ target_of e = target_of e' ∨
         source_of e = target_of e' ∧ target_of e = source_of e' → e = e').
Proof.
  rewrite clustering_tuple3, minimum_spanning_tree_scan.
  destruct (clustering_checked_scan vle edges k) as (st & _ & -> & _ & Hmst & _).
  destruct (accepted_accepted id (sorted vle edges)) as [HAA _].
  eexists _, _, _. split_and!; try done.
  intros F [->| ->]; apply acyclic_simple.
  - by apply accepted_acyclic.
  - rewrite Hmst. by apply accepted_acyclic, accepted_take.
Qed.

(** X11: [minimum_spanning_tree] returns as many edges as the graph has
    vertices minus connected components; on a connected graph, one less
    than it has vertices. *)
Theorem minimum_spanning_tree_size edges (P : gset (gset V)) :
  components (_vertices edges) (.∈ edges) P →
  ∃ mst, minimum_spanning_tree vle edges = Ok mst ∧
    (size mst + size P = size (_vertices edges))%nat ∧
    (connected_graph edges → (size mst + 1 = size (_vertices edges))%nat).
Proof.
  intros HP. rewrite minimum_spanning_tree_scan. eexists. split; [done|].
  rewrite size_list_to_set by apply accepted_NoDup.
  pose proof (classes_final (_vertices edges) id _ (sorted_ends vle edges)) as Hn.
  rewrite classes_id in Hn.
  assert (size P = classes (_vertices edges) (final id (sorted vle edges))) as HPn.
  { apply (components_size _ (.∈ edges)); [done|]. intros x y _ _.
    rewrite final_connected. split; apply connected_mono; intros e; by rewrite sorted_elem_of. }
  split; [lia|]. intros [Hne Hconn].
  destruct edges as [|e0 edges']; [done|]. set (edges := e0 :: edges') in *.
  rewrite (classes_const _ _ (source_of e0)) in Hn; [lia| |].
  - apply vertices_elem_of. exists e0. split; [by left|by left].
  - intros x y Hx Hy. rewrite final_connected.
    eapply connected_mono; [|by apply Hconn]. intros e. by rewrite sorted_elem_of.
Qed.

End loops_further.

(** ** What the order of the edges gives *)

Section sorted_edges.
Context `{Countable V} (vle : relation V) `{!RelDecision vle}.
Context `{!PartialOrder vle, !Total vle}.
Implicit Types (edges l : list (edge (V:=V))).

#[local] Existing Instances edge_le_trans edge_le_total.

#[local] Instance edge_le_antisymm : AntiSymm (=) (edge_le vle).
Proof.
  intros [[w1 a1] b1] [[w2 a2] b2]. unfold edge_le, weight_of, source_of, target_of, strict.
  simpl. intros [?|[? H1]] [?|[? H2]]; try lia. subst w2.
  destruct H1 as [[Ha Hna]|[-> Hb]], H2 as [[Ha' Hna']|[Heq Hb']].
  - by destruct Hna.
  - subst. destruct Hna. reflexivity.
  - destruct Hna'. reflexivity.
  - f_equal. by apply (anti_symm vle).
Qed.

Lemma sorted_perm l l' : l ≡ₚ l' → sorted vle l = sorted vle l'.
Proof.
  intros Hl. unfold sorted. apply (Sorted_unique (edge_le vle)).
  - apply Sorted_merge_sort, _.
  - apply Sorted_merge_sort, _.
  - by rewrite !merge_sort_Permutation.
Qed.

(** X13: the results do not depend on the order in which the input
    collection gives its edges. *)
Theorem results_independent_of_input_order edges edges' k :
  edges ≡ₚ edges' →
  minimum_spanning_tree vle edges = minimum_spanning_tree vle edges' ∧
  clustering vle (tuple3 <$> edges) k = clustering vle (tuple3 <$> edges') k.
Proof.
  intros Hperm.
  assert (_vertices edges = _vertices edges') as Hv.
  { apply vertices_ext. intros e. by rewrite Hperm. }
  pose proof (sorted_perm _ _ Hperm) as Hs. split.
  - unfold minimum_spanning_tree. by rewrite Hv, Hs.
  - rewrite !clustering_tuple3. unfold clustering_checked, clustering_init.
    by rewrite Hv, Hs.
Qed.

(** Every accepted edge weighs at most as any edge that still joins two
    groups. *)
Lemma scan_spacing l :
  StronglySorted (λ e e', weight_of e ≤ weight_of e') l →
  ∀ (r : V → V) b e a,
    e ∈ l → a ∈ take b (accepted r l) →
    final r (take b (accepted r l)) (source_of e) ≠
      final r (take b (accepted r l)) (target_of e) →
    weight_of a ≤ weight_of e.
Proof.
  induction 1 as [|x l Hsort IH Hmin]; intros r b e a He Ha Hfin; [by apply elem_of_nil in He|].
  rewrite Forall_forall in Hmin. cbn [accepted] in Ha, Hfin.
  apply elem_of_cons in He. case_decide as Hr.
  - destruct He as [->|He]; [|by eapply IH].
    destruct Hfin. by apply final_coarser.
  - destruct b as [|b]; [by apply elem_of_nil in Ha|]. cbn [take final] in Ha, Hfin.
    rewrite decide_False in Hfin by done.
    destruct He as [->|He].
    { destruct Hfin. apply final_coarser, merge_ends. }
    apply elem_of_cons in Ha as [->|Ha]; [by apply Hmin|]. by eapply IH.
Qed.

(** X12: [clustering] stops with the widest gaps left open: any edge of the
    graph whose two ends are in different clusters weighs at least as much
    as every accepted edge. *)
Theorem clustering_spacing edges k :
  ∃ acc cc, clustering vle (tuple3 <$> edges) k = Ok (acc, cc) ∧
    ∀ e a, e ∈ edges → a ∈ acc →
      (∀ s m, cc !! s = Some m → ¬ (source_of e ∈ m ∧ target_of e ∈ m)) →
      weight_of a ≤ weight_of e.
Proof.
  rewrite clustering_tuple3.
  destruct (clustering_checked_scan vle edges k) as (st & Hloop & -> & Hinv & Hmst & _).
  destruct (clustering_init_inv edges) as (Hinv0 & Hrep0 & _ & Hup0 & _).
  pose proof (clustering_loop_kernel _ _ _ _ id _ Hinv0
                ltac:(by intros ? ? _ _; rewrite !Hrep0) (sorted_ends vle edges) Hloop) as Hker.
  rewrite Hup0 in Hker.
  replace (Z.of_nat (size (_vertices edges)) - k + 1 - 1)
    with (Z.of_nat (size (_vertices edges)) - k) in Hker by lia.
  exists (st_minspantree st), (st_cc st). split; [done|].
  intros e a He Ha Hsep. rewrite Hmst, elem_of_list_to_set in Ha.
  destruct (ends_in_elem_of _ _ _ (vertices_ends edges) He) as [Hs Ht].
  eapply (scan_spacing (sorted vle edges)); [by apply sorted_by_weight| |done|].
  { by apply sorted_elem_of. }
  intros Heq. apply Hker in Heq; [|done..].
  pose proof (rep_in_dom_cc _ _ _ Hinv Hs) as [m Hm]%elem_of_dom.
  apply (Hsep _ _ Hm). rewrite (cinv_members _ _ Hinv _ _ Hm). unfold members_of.
  by rewrite !elem_of_filter.
Qed.

End sorted_edges.

(** ** Few clusters asked *)

Section few_clusters.
Context `{Countable V} (vle : relation V) `{!RelDecision vle}.
Implicit Types (edges : list (edge (V:=V))).

(** X14: when the count of clusters asked is at most the number of connected
    components of the graph, [clustering] accepts just the edges that
    [minimum_spanning_tree] returns, and the member sets of its mapping are
    the connected components of the graph. *)
Theorem clustering_returns_components edges k (P : gset (gset V)) :
  components (_vertices edges) (.∈ edges) P →
  k ≤ Z.of_nat (size P) →
  ∃ mst cc,
    clustering vle (tuple3 <$> edges) k = Ok (mst, cc) ∧
    minimum_spanning_tree vle edges = Ok mst ∧
    ∀ C, C ∈ P ↔ ∃ s, cc !! s = Some C.
Proof.
  intros HP Hk. rewrite clustering_tuple3, minimum_spanning_tree_scan.
  destruct (clustering_checked_scan vle edges k) as (st & Hloop & -> & Hinv & Hmst & _).
  destruct (clustering_init_inv edges) as (Hinv0 & Hrep0 & _ & Hup0 & _).
  pose proof (clustering_loop_kernel _ _ _ _ id _ Hinv0
                ltac:(by intros ? ? _ _; rewrite !Hrep0) (sorted_ends vle edges) Hloop) as Hker.
  rewrite Hup0 in Hker.
  replace (Z.of_nat (size (_vertices edges)) - k + 1 - 1)
    with (Z.of_nat (size (_vertices edges)) - k) in Hker by lia.
  pose proof (classes_final (_vertices edges) id _ (sorted_ends vle edges)) as Hn.
  rewrite classes_id in Hn.
  assert (∀ x y, final id (sorted vle edges) x = final id (sorted vle edges) y ↔
                 connected (.∈ edges) x y) as Hfin.
  { intros x y. rewrite final_connected.
    split; apply connected_mono; intros e; by rewrite sorted_elem_of. }
  rewrite <-(components_size _ _ _ (final id (sorted vle edges)) HP) in Hn
    by (intros x y _ _; apply Hfin).
  rewrite take_ge in Hmst, Hker by lia.
  destruct (accepted_accepted id (sorted vle edges)) as [_ HfA]. rewrite HfA in Hker.
  exists (st_minspantree st), (st_cc st). split_and!; [done|by rewrite Hmst|].
  assert (∀ x y, x ∈ _vertices edges →
            (y ∈ members_of (_vertices edges) (st_parent st) (rep (st_parent st) x) ↔
             y ∈ _vertices edges ∧ connected (.∈ edges) x y)) as Hmem.
  { intros x y Hx. unfold members_of. rewrite elem_of_filter.
    split.
    - intros [Hxy Hy]. split; [done|]. apply Hfin, Hker; done.
    - intros [Hy Hxy]. split; [|done]. symmetry. apply Hker; [done..|]. by apply Hfin. }
  destruct HP as [Hcov Hcls]. intros C. split.
  - intros (x & Hx & HC)%Hcls.
    pose proof (rep_in_dom_cc _ _ _ Hinv Hx) as [m Hm]%elem_of_dom.
    exists (rep (st_parent st) x). rewrite Hm. f_equal.
    rewrite (cinv_members _ _ Hinv _ _ Hm).
    apply set_eq. intros y. by rewrite HC, Hmem.
  - intros [s Hs].
    assert (s ∈ dom (st_cc st)) as Hsd by (apply elem_of_dom; eauto).
    rewrite (cinv_dom _ _ Hinv) in Hsd. apply elem_of_filter in Hsd as [Hss HsV].
    destruct (Hcov s HsV) as (C' & HC' & HsC').
    destruct (Hcls C' HC') as (x & Hx & HCx).
    assert (C = C') as ->; [|done].
    rewrite (cinv_members _ _ Hinv _ _ Hs), <-Hss.
    apply set_eq. intros y. rewrite HCx, (Hmem s y HsV).
    destruct (proj1 (HCx s) HsC') as [_ Hxs].
    split.
    + intros [Hy Hsy]. split; [done|]. by trans s.
    + intros [Hy Hxy]. split; [done|]. trans x; [by symmetry|done].
Qed.

End few_clusters.

(** ** The further properties on small inputs *)

Lemma unknown_vertex_KeyError_witness :
  (make_sets ({[1%nat]} : gset nat)).1.1 !! 0%nat = None ∧
  find 0%nat (make_sets ({[1%nat]} : gset nat)).1.1 = Raise KeyError ∧
  _union 1%nat 0%nat (make_sets ({[1%nat]} : gset nat)).1.1
                     (make_sets ({[1%nat]} : gset nat)).1.2 = Raise KeyError.
Proof.
  destruct (make_sets_state ({[1%nat]} : gset nat)) as [Huf Hrk].
  assert ((make_sets ({[1%nat]} : gset nat)).1.1 !! 0%nat = None) as Hl.
  { destruct (make_sets_lookup ({[1%nat]} : gset nat) 0%nat) as (-> & _).
    by rewrite decide_False by set_solver. }
  destruct (unknown_vertex_KeyError 0%nat 1%nat
              (make_sets ({[1%nat]} : gset nat)).1.1
              (make_sets ({[1%nat]} : gset nat)).1.2 Hl) as (Hf & _ & _ & Hsnd).
  destruct (Hsnd {[1%nat]} Huf Hrk) as [Hu _]; [set_solver|].
  by split_and!.
Defined.

Lemma find_returns_root_witness :
  _find 2 2%nat (<[2%nat:=1%nat]> (<[1%nat:=0%nat]> {[0%nat:=0%nat]}) : gmap nat nat)
    = Raise RecursionError ∧
  (∃ p', _find 3 2%nat (<[2%nat:=1%nat]> (<[1%nat:=0%nat]> {[0%nat:=0%nat]}) : gmap nat nat)
           = Ok (0%nat, p')) ∧
  (∃ s p', find 0%nat (make_sets ({[0%nat; 1%nat]} : gset nat)).1.1 = Ok (s, p')).
Proof.
  assert (reaches (<[2%nat:=1%nat]> (<[1%nat:=0%nat]> {[0%nat:=0%nat]}) : gmap nat nat)
            2 2%nat 0%nat) as Hchain.
  { apply (reaches_step _ _ _ 1%nat); [reflexivity|lia|].
    apply (reaches_step _ _ _ 0%nat); [reflexivity|lia|].
    apply reaches_root. reflexivity. }
  split_and!.
  - apply (proj1 (proj2 (find_returns_root 2 2%nat 0%nat _)) 2%nat Hchain). lia.
  - apply (proj1 (find_returns_root 3 2%nat 0%nat _)). exists 2%nat. split; [exact Hchain|lia].
  - destruct (make_sets_state ({[0%nat; 1%nat]} : gset nat)) as [Huf Hrk].
    destruct (proj2 (proj2 (find_returns_root 0 0%nat 0%nat
                (make_sets ({[0%nat; 1%nat]} : gset nat)).1.1)) _ _ Huf Hrk)
      as (n & s & p' & _ & _ & Hf & _); [set_solver|].
    by exists s, p'.
Defined.

Lemma find_compresses_path_witness :
  find 2%nat (<[2%nat:=1%nat]> (<[1%nat:=0%nat]> {[0%nat:=0%nat]}) : gmap nat nat)
    = Ok (0%nat, <[2%nat:=0%nat]> (<[1%nat:=0%nat]> {[0%nat:=0%nat]})) ∧
  (<[2%nat:=0%nat]> (<[1%nat:=0%nat]> {[0%nat:=0%nat]}) : gmap nat nat) !! 2%nat = Some 0%nat.
Proof.
  assert (find 2%nat (<[2%nat:=1%nat]> (<[1%nat:=0%nat]> {[0%nat:=0%nat]}) : gmap nat nat)
    = Ok (0%nat, <[2%nat:=0%nat]> (<[1%nat:=0%nat]> {[0%nat:=0%nat]}))) as Hf.
  { unfold find. vm_compute. reflexivity. }
  split; [exact Hf|].
  exact (proj1 (find_compresses_path _ _ _ _ Hf)).
Defined.

Lemma union_by_rank_keeps_trees_shallow_witness :
  sorted le triangle = [(1, 0%nat, 1%nat); (2, 1%nat, 2%nat)] ++ [(3, 0%nat, 2%nat)] ∧
  ∃ st, clustering_loop (Z.of_nat (size (_vertices triangle)) - 1)
          [(1, 0%nat, 1%nat); (2, 1%nat, 2%nat)] (clustering_init triangle) = Ok st ∧
        rank_inv (_vertices triangle) (st_parent st) (st_rank st).
Proof.
  split; [reflexivity|].
  destruct (union_by_rank_keeps_trees_shallow le triangle 1
              [(1, 0%nat, 1%nat); (2, 1%nat, 2%nat)] [(3, 0%nat, 2%nat)])
    as [(st & Hst & Hrk & _) _]; [reflexivity|].
  exists st. by split.
Defined.

Lemma clustering_accepts_mst_edges_witness :
  1 ≤ 2 ∧
  ∃ acc cc acc' cc' mst,
    clustering le (tuple3 <$> triangle) 1 = Ok (acc, cc) ∧
    clustering le (tuple3 <$> triangle) 2 = Ok (acc', cc') ∧
    minimum_spanning_tree le triangle = Ok mst ∧
    acc' ⊆ acc ∧ acc ⊆ mst ∧
    Z.of_nat (size acc) =
      Z.min (Z.max 0 (Z.of_nat (size (_vertices triangle)) - 1)) (Z.of_nat (size mst)).
Proof.
  split; [lia|]. apply (clustering_accepts_mst_edges le triangle 1 2). lia.
Defined.

Lemma one_edge_size : size (_vertices one_edge) = 2%nat.
Proof.
  assert (_vertices one_edge = {[0%nat; 1%nat]}) as ->.
  { apply set_eq. intros x. rewrite one_edge_vertices. set_solver. }
  by rewrite size_union, !size_singleton by set_solver.
Qed.

Lemma clustering_too_many_clusters_witness :
  Z.of_nat (size (_vertices one_edge)) ≤ 5 ∧
  ∃ cc, clustering le (tuple3 <$> one_edge) 5 = Ok (∅, cc) ∧
        ∀ v, cc !! v = if decide (v ∈ _vertices one_edge) then Some {[v]} else None.
Proof.
  assert (Z.of_nat (size (_vertices one_edge)) ≤ 5) as Hle by (rewrite one_edge_size; lia).
  split; [exact Hle|]. exact (clustering_too_many_clusters le one_edge 5 Hle).
Defined.

Lemma minimum_spanning_tree_size_witness :
  components (_vertices one_edge) (.∈ one_edge) {[ {[0%nat; 1%nat]} ]} ∧
  ∃ mst, minimum_spanning_tree le one_edge = Ok mst ∧
    (size mst + size ({[ {[0%nat; 1%nat]} ]} : gset (gset nat)) = size (_vertices one_edge))%nat ∧
    (connected_graph one_edge → (size mst + 1 = size (_vertices one_edge))%nat).
Proof.
  split; [exact one_edge_components|].
  exact (minimum_spanning_tree_size le one_edge _ one_edge_components).
Defined.

Lemma results_independent_of_input_order_witness :
  PartialOrder le ∧ Total le ∧
  triangle ≡ₚ [ (1, 0%nat, 1%nat); (2, 1%nat, 2%nat); (3, 0%nat, 2%nat) ] ∧
  minimum_spanning_tree le triangle =
    minimum_spanning_tree le [ (1, 0%nat, 1%nat); (2, 1%nat, 2%nat); (3, 0%nat, 2%nat) ] ∧
  clustering le (tuple3 <$> triangle) 2 =
    clustering le (tuple3 <$> [ (1, 0%nat, 1%nat); (2, 1%nat, 2%nat); (3, 0%nat, 2%nat) ]) 2.
Proof.
  assert (triangle ≡ₚ [ (1, 0%nat, 1%nat); (2, 1%nat, 2%nat); (3, 0%nat, 2%nat) ]) as Hperm
    by apply perm_swap.
  split; [apply _|]. split; [apply _|]. split; [exact Hperm|].
  exact (results_independent_of_input_order le triangle _ 2 Hperm).
Defined.

Lemma clustering_spacing_witness :
  PartialOrder le ∧ Total le ∧
  ∃ acc cc, clustering le (tuple3 <$> triangle) 2 = Ok (acc, cc) ∧
    ∀ e a, e ∈ triangle → a ∈ acc →
      (∀ s m, cc !! s = Some m → ¬ (source_of e ∈ m ∧ target_of e ∈ m)) →
      weight_of a ≤ weight_of e.
Proof.
  split; [apply _|]. split; [apply _|]. exact (clustering_spacing le triangle 2).
Defined.

Lemma clustering_returns_components_witness :
  components (_vertices one_edge) (.∈ one_edge) {[ {[0%nat; 1%nat]} ]} ∧
  1 ≤ Z.of_nat (size ({[ {[0%nat; 1%nat]} ]} : gset (gset nat))) ∧
  ∃ mst cc,
    clustering le (tuple3 <$> one_edge) 1 = Ok (mst, cc) ∧
    minimum_spanning_tree le one_edge = Ok mst ∧
    ∀ C, C ∈ ({[ {[0%nat; 1%nat]} ]} : gset (gset nat)) ↔ ∃ s, cc !! s = Some C.
Proof.
  assert (1 ≤ Z.of_nat (size ({[ {[0%nat; 1%nat]} ]} : gset (gset nat)))) as Hle
    by (rewrite size_singleton; lia).
  split; [exact one_edge_components|]. split; [exact Hle|].
  exact (clustering_returns_components le one_edge 1 _ one_edge_components Hle).
Defined.
